(** * Graphs-and-Queues: a shallow embedding of [priorityQueue.py],
    [graph.py] and [simpleQueue.py], and the properties of the heap, the
    path searches, the cycle check and the fixed-length queue.

    Python values are modelled as follows.
    - A vertex label and a heap key is a [string].
    - A priority is an integer or [float('inf')]: type [prio].
    - A heap entry is the tuple [(priority, key)], compared as Python
      compares tuples (first components first, keys on a tie).
    - A Python list is a [list]; indices are Python ints, hence [Z], and
      indexing follows Python (negative indices count from the end, an index
      out of range raises [IndexError]).
    - [dict] is [gmap], [set] is [gset].
    - A call either returns a value or raises: type [result].  Loops whose
      trip count is not structural take a fuel argument; running out of it
      is the separate outcome [OutOfFuel], which is no Python behaviour.
      The heap methods, [find_shortest_path] and [check_cycles] fix their
      fuel themselves and never run out of it; [Dijkstra] takes the fuel of
      its [while] loop as an argument.
    - An exception ends the call; the state a method leaves behind when it
      raises half way is not kept.  Python's recursion limit is not
      modelled. *)

From Stdlib Require Import ZArith Lia Sorted.
From stdpp Require Import gmap strings list fin_maps.

Local Open Scope Z_scope.

(** ** Python outcomes *)

Inductive exn := IndexError | KeyError | TypeError.

Inductive result (A : Type) :=
  | Ok (a : A)
  | Raise (e : exn)
  | OutOfFuel.
Arguments Ok {A} a.
Arguments Raise {A} e.
Arguments OutOfFuel {A}.

Global Instance result_ret : MRet result := @Ok.
Global Instance result_bind : MBind result := λ A B f m,
  match m with
  | Ok a => f a
  | Raise e => Raise e
  | OutOfFuel => OutOfFuel
  end.

Module Py.

(** [l[i]] *)
Definition getitem {A} (l : list A) (i : Z) : result A :=
  let n := Z.of_nat (length l) in
  let j := if bool_decide (i < 0) then n + i else i in
  if bool_decide (0 ≤ j < n) then
    match l !! Z.to_nat j with
    | Some x => Ok x
    | None => Raise IndexError
    end
  else Raise IndexError.

(** [l[i] = x] *)
Definition setitem {A} (l : list A) (i : Z) (x : A) : result (list A) :=
  let n := Z.of_nat (length l) in
  let j := if bool_decide (i < 0) then n + i else i in
  if bool_decide (0 ≤ j < n) then Ok (<[Z.to_nat j := x]> l)
  else Raise IndexError.

(** [l.pop()] : the list without its last element *)
Definition pop {A} (l : list A) : result (list A) :=
  match l with
  | [] => Raise IndexError
  | _ => Ok (removelast l)
  end.

(** [l[i], l[j] = l[j], l[i]] : both reads, then the two writes in order *)
Definition swap {A} (l : list A) (i j : Z) : result (list A) :=
  a ← getitem l j;
  b ← getitem l i;
  l1 ← setitem l i a;
  setitem l1 j b.

End Py.

(** ** priorityQueue.py *)

Module priorityQueue.

Inductive prio := Fin (n : Z) | Inf.

Global Instance prio_eq_dec : EqDecision prio.
Proof. solve_decision. Defined.

Definition prio_ltb (p q : prio) : bool :=
  match p, q with
  | Fin a, Fin b => bool_decide (a < b)
  | Fin _, Inf => true
  | Inf, _ => false
  end.

(** [p + 1] *)
Definition prio_succ (p : prio) : prio :=
  match p with
  | Fin a => Fin (a + 1)
  | Inf => Inf
  end.

Abbreviation entry := (prio * string)%type.

(** [a < b] on tuples: the first components decide unless they are equal *)
Definition tuple_ltb (a b : entry) : bool :=
  if bool_decide (a.1 = b.1) then String.ltb a.2 b.2 else prio_ltb a.1 b.1.

(** [a > b] on tuples *)
Definition tuple_gtb (a b : entry) : bool :=
  if bool_decide (a.1 = b.1) then String.ltb b.2 a.2 else prio_ltb b.1 a.1.

Definition sentinel : entry := (Fin 0, "0"%string).

Record BinaryHeap := mkHeap {
  heapList : list entry;
  currentSize : Z
}.

(** [__init__] *)
Definition init : BinaryHeap := mkHeap [sentinel] 0.

Fixpoint percUp (fuel : nat) (h : BinaryHeap) (i : Z) : result BinaryHeap :=
  if bool_decide (i / 2 > 0) then
    match fuel with
    | O => OutOfFuel
    | S fuel' =>
        a ← Py.getitem (heapList h) i;
        b ← Py.getitem (heapList h) (i / 2);
        l ← (if tuple_ltb a b then Py.swap (heapList h) (i / 2) i
             else Ok (heapList h));
        percUp fuel' (mkHeap l (currentSize h)) (i / 2)
    end
  else Ok h.

Definition insert (h : BinaryHeap) (k : entry) : result BinaryHeap :=
  let h1 := mkHeap (heapList h ++ [k]) (currentSize h + 1) in
  percUp (Z.to_nat (currentSize h1)) h1 (currentSize h1).

Definition minChild (h : BinaryHeap) (i : Z) : result Z :=
  if bool_decide (i * 2 + 1 > currentSize h) then Ok (i * 2)
  else
    a ← Py.getitem (heapList h) (i * 2);
    b ← Py.getitem (heapList h) (i * 2 + 1);
    if tuple_ltb a b then Ok (i * 2) else Ok (i * 2 + 1).

Fixpoint percDown (fuel : nat) (h : BinaryHeap) (i : Z) : result BinaryHeap :=
  if bool_decide (i * 2 ≤ currentSize h) then
    match fuel with
    | O => OutOfFuel
    | S fuel' =>
        mc ← minChild h i;
        a ← Py.getitem (heapList h) i;
        b ← Py.getitem (heapList h) mc;
        l ← (if tuple_gtb a b then Py.swap (heapList h) i mc
             else Ok (heapList h));
        percDown fuel' (mkHeap l (currentSize h)) mc
    end
  else Ok h.

Definition delMin (h : BinaryHeap) : result (entry * BinaryHeap) :=
  retval ← Py.getitem (heapList h) 1;
  last ← Py.getitem (heapList h) (currentSize h);
  l1 ← Py.setitem (heapList h) 1 last;
  l2 ← Py.pop l1;
  h' ← percDown (Z.to_nat (currentSize h)) (mkHeap l2 (currentSize h - 1)) 1;
  Ok (retval, h').

Fixpoint buildHeap_loop (n : nat) (h : BinaryHeap) : result BinaryHeap :=
  match n with
  | O => Ok h
  | S n' =>
      h' ← percDown (Z.to_nat (currentSize h)) h (Z.of_nat n);
      buildHeap_loop n' h'
  end.

Definition buildHeap (alist : list entry) : result BinaryHeap :=
  let i := (length alist / 2)%nat in
  buildHeap_loop i (mkHeap (sentinel :: alist) (Z.of_nat (length alist))).

Definition isEmpty (h : BinaryHeap) : bool :=
  bool_decide (heapList h = [sentinel]).

(** the index of the first tuple whose key is [name], as the [for] loop
    over [enumerate(self.heapList)] finds it *)
Fixpoint find_name (l : list entry) (name : string) (i : nat) : option nat :=
  match l with
  | [] => None
  | t :: l' => if bool_decide (t.2 = name) then Some i
               else find_name l' name (S i)
  end.

Definition editHeap (h : BinaryHeap) (name : string) (update : entry)
  : result BinaryHeap :=
  match find_name (heapList h) name 0 with
  | Some i =>
      insert (mkHeap (delete i (heapList h)) (currentSize h - 1)) update
  | None => insert h update
  end.

(** the first tuple whose key is [name], or [None] *)
Fixpoint display_scan (l : list entry) (name : string) : option entry :=
  match l with
  | [] => None
  | t :: l' => if bool_decide (t.2 = name) then Some t
               else display_scan l' name
  end.

Definition display (h : BinaryHeap) (name : string) : option entry :=
  display_scan (heapList h) name.

(** a Python value that can be looked for in a heap: a number or a string *)
Inductive value := VNum (p : prio) | VStr (s : string).

Global Instance value_eq_dec : EqDecision value.
Proof. solve_decision. Defined.

(** [item in tuple] *)
Definition in_tuple (item : value) (t : entry) : bool :=
  bool_decide (item = VNum t.1) || bool_decide (item = VStr t.2).

(** [__contains__] : [any([item in tuple for tuple in self.heapList])] *)
Definition contains (h : BinaryHeap) (item : value) : bool :=
  existsb (in_tuple item) (heapList h).

(** repeated [delMin] until [isEmpty], at most [fuel] times *)
Fixpoint drain (fuel : nat) (h : BinaryHeap) : result (list entry) :=
  if isEmpty h then Ok []
  else
    match fuel with
    | O => OutOfFuel
    | S fuel' =>
        '(x, h') ← delMin h;
        xs ← drain fuel' h';
        Ok (x :: xs)
    end.

(** [while not h.isEmpty(): h.delMin()], with the values returned; each
    [delMin] takes one tuple off, so [currentSize] rounds are enough *)
Definition delMin_until_empty (h : BinaryHeap) : result (list entry) :=
  drain (Z.to_nat (currentSize h)) h.

(** a sequence of [insert] calls, in order *)
Fixpoint insert_all (h : BinaryHeap) (ks : list entry) : result BinaryHeap :=
  match ks with
  | [] => Ok h
  | k :: ks' => h' ← insert h k; insert_all h' ks'
  end.

End priorityQueue.

Module pQ := priorityQueue.

(** ** graph.py *)

Module graph.

Record Graph := mkGraph {
  vertexList : list string;
  connections : gmap string (list string)
}.

(** [Graph()] *)
Definition init : Graph := mkGraph [] ∅.

Definition addVertex (g : Graph) (vertex : string) : Graph :=
  if bool_decide (vertex ∈ vertexList g) then g
  else mkGraph (vertexList g ++ [vertex]) (<[vertex := []]> (connections g)).

Definition addConn (g : Graph) (v1 v2 : string) : result Graph :=
  let g1 := if bool_decide (v1 ∈ vertexList g) then g else addVertex g v1 in
  let g2 := if bool_decide (v2 ∈ vertexList g1) then g1 else addVertex g1 v2 in
  match connections g2 !! v1 with
  | None => Raise KeyError
  | Some ns =>
      if bool_decide (v2 ∈ ns) then Ok g2
      else Ok (mkGraph (vertexList g2) (<[v1 := ns ++ [v2]]> (connections g2)))
  end.

Definition hasVert (g : Graph) (vert : string) : bool :=
  bool_decide (vert ∈ vertexList g).

(** [None] for a vertex that is not in the graph *)
Definition getConns (g : Graph) (vert : string) : result (option (list string)) :=
  if negb (hasVert g vert) then Ok None
  else
    match connections g !! vert with
    | Some ns => Ok (Some ns)
    | None => Raise KeyError
    end.

Definition getNodes (g : Graph) : list string := vertexList g.

(** [for x in v] where [v] may be [None] *)
Definition iter (v : option (list string)) : result (list string) :=
  match v with
  | Some ns => Ok ns
  | None => Raise TypeError
  end.

(** truth value of a path-or-[None] *)
Definition truthy (v : option (list string)) : bool :=
  match v with
  | Some (_ :: _) => true
  | _ => false
  end.

(** [len(v)] *)
Definition len (v : option (list string)) : result nat :=
  match v with
  | Some l => Ok (length l)
  | None => Raise TypeError
  end.

(** the [for node in graph.getConns(start)] loop of [find_shortest_path];
    [rec node] is the recursive call on [node] with the current [path] *)
Fixpoint find_shortest_path_loop
    (rec : string → result (option (list string)))
    (path : list string) (nodes : list string)
    (shortest : option (list string)) : result (option (list string)) :=
  match nodes with
  | [] => Ok shortest
  | node :: nodes' =>
      if bool_decide (node ∈ path) then
        find_shortest_path_loop rec path nodes' shortest
      else
        newpath ← rec node;
        shortest' ←
          (if truthy newpath then
             if negb (truthy shortest) then Ok newpath
             else
               n1 ← len newpath;
               n2 ← len shortest;
               if bool_decide (n1 < n2)%nat then Ok newpath else Ok shortest
           else Ok shortest);
        find_shortest_path_loop rec path nodes' shortest'
  end.

Fixpoint find_shortest_path_rec (fuel : nat) (g : Graph)
    (start end_ : string) (path : list string)
  : result (option (list string)) :=
  match fuel with
  | O => OutOfFuel
  | S fuel' =>
      let path := path ++ [start] in
      if bool_decide (start = end_) then Ok (Some path)
      else if negb (hasVert g start) || negb (hasVert g end_) then Ok None
      else
        conns ← getConns g start;
        nodes ← iter conns;
        find_shortest_path_loop
          (λ node, find_shortest_path_rec fuel' g node end_ path)
          path nodes None
  end.

(** the call [find_shortest_path(graph, start, end)], [path] defaulting to
    [[]]; a path never holds a vertex twice, so the recursion is at most
    one deeper than the number of vertices *)
Definition find_shortest_path (g : Graph) (start end_ : string)
  : result (option (list string)) :=
  find_shortest_path_rec (S (length (vertexList g))) g start end_ [].

(** [d[k]] *)
Definition dict_get (d : gmap string pQ.prio) (k : string) : result pQ.prio :=
  match d !! k with
  | Some v => Ok v
  | None => Raise KeyError
  end.

(** the first loop of [Dijkstra] *)
Fixpoint Dijkstra_init (nodes : list string) (source : string)
    (dist : gmap string pQ.prio) (pq : pQ.BinaryHeap)
  : result (gmap string pQ.prio * pQ.BinaryHeap) :=
  match nodes with
  | [] => Ok (dist, pq)
  | node :: nodes' =>
      let dist := if bool_decide (node ≠ source) then <[node := pQ.Inf]> dist
                  else <[node := pQ.Fin 0]> dist in
      d ← dict_get dist node;
      pq ← pQ.insert pq (d, node);
      Dijkstra_init nodes' source dist pq
  end.

(** the [for next_node in graph.getConns(current[1])] loop *)
Fixpoint Dijkstra_relax (current : pQ.entry) (nodes : list string)
    (dist : gmap string pQ.prio) (pq : pQ.BinaryHeap)
  : result (gmap string pQ.prio * pQ.BinaryHeap) :=
  match nodes with
  | [] => Ok (dist, pq)
  | next_node :: nodes' =>
      let new_dist := pQ.prio_succ current.1 in
      d ← dict_get dist next_node;
      if pQ.prio_ltb new_dist d then
        let dist := <[next_node := new_dist]> dist in
        d' ← dict_get dist next_node;
        pq ← pQ.editHeap pq next_node (d', next_node);
        Dijkstra_relax current nodes' dist pq
      else Dijkstra_relax current nodes' dist pq
  end.

(** the [while not pq.isEmpty()] loop *)
Fixpoint Dijkstra_loop (fuel : nat) (g : Graph)
    (dist : gmap string pQ.prio) (pq : pQ.BinaryHeap)
  : result (gmap string pQ.prio) :=
  if pQ.isEmpty pq then Ok dist
  else
    match fuel with
    | O => OutOfFuel
    | S fuel' =>
        '(current, pq) ← pQ.delMin pq;
        conns ← getConns g current.2;
        nodes ← iter conns;
        '(dist, pq) ← Dijkstra_relax current nodes dist pq;
        Dijkstra_loop fuel' g dist pq
    end.

Definition Dijkstra (fuel : nat) (g : Graph) (source : string)
  : result (gmap string pQ.prio) :=
  '(dist, pq) ← Dijkstra_init (vertexList g) source ∅ pQ.init;
  Dijkstra_loop fuel g dist pq.

(** the two sets of [check_cycles], under the names [visit] gives them *)
Record marks := mkMarks {
  visited : gset string;
  path : gset string
}.

(** the [for neighbour in graph.getConns(vertex)] loop of [visit];
    [rec] is the recursive call.  The result is [true] when the loop
    returns [True], [false] when it runs to its end. *)
Fixpoint visit_loop (rec : string → marks → result (bool * marks))
    (nodes : list string) (m : marks) : result (bool * marks) :=
  match nodes with
  | [] => Ok (false, m)
  | neighbour :: nodes' =>
      if bool_decide (neighbour ∈ path m) then Ok (true, m)
      else
        '(b, m') ← rec neighbour m;
        if (b : bool) then Ok (true, m') else visit_loop rec nodes' m'
  end.

Fixpoint visit (fuel : nat) (g : Graph) (vertex : string) (m : marks)
  : result (bool * marks) :=
  match fuel with
  | O => OutOfFuel
  | S fuel' =>
      if bool_decide (vertex ∈ visited m) then Ok (false, m)
      else
        let m := mkMarks (visited m ∪ {[vertex]}) (path m ∪ {[vertex]}) in
        conns ← getConns g vertex;
        nodes ← iter conns;
        '(b, m) ← visit_loop (visit fuel' g) nodes m;
        if (b : bool) then Ok (true, m)
        else if bool_decide (vertex ∈ path m)
             then Ok (false, mkMarks (visited m) (path m ∖ {[vertex]}))
             else Raise KeyError
  end.

(** [any(visit(vert, ...) for vert in graph)] *)
Fixpoint check_cycles_loop (fuel : nat) (g : Graph) (verts : list string)
    (m : marks) : result bool :=
  match verts with
  | [] => Ok false
  | vert :: verts' =>
      '(b, m') ← visit fuel g vert m;
      if (b : bool) then Ok true else check_cycles_loop fuel g verts' m'
  end.

(** [check_cycles] passes its set [path] as [visit]'s [visited] and its
    set [visited] as [visit]'s [path]; both are empty.  Every call of
    [visit] that goes past its first test marks a new vertex, so the
    recursion is at most one deeper than the number of vertices. *)
Definition check_cycles (g : Graph) : result bool :=
  check_cycles_loop (S (length (vertexList g))) g (vertexList g)
                    (mkMarks ∅ ∅).

End graph.

(** ** simpleQueue.py *)

Module simpleQueue.

(** the two exceptions the queue can raise; a call returns [inr] of its
    value or [inl] of the exception *)
Inductive error := IndexError | ValueError.

Record SimpleQueue (A : Type) := mkQueue {
  maxlen : Z;
  list : Datatypes.list A
}.
Arguments mkQueue {A} maxlen list.
Arguments maxlen {A} s.
Arguments list {A} s.

(** [SimpleQueue(maxlen)] *)
Definition init {A} (maxlen : Z) : SimpleQueue A := mkQueue maxlen [].

(** [l.pop(0)] : the first item and the rest *)
Definition pop0 {A} (l : Datatypes.list A) : error + A * Datatypes.list A :=
  match l with
  | [] => inl IndexError
  | x :: l' => inr (x, l')
  end.

Definition append {A} (q : SimpleQueue A) (item : A) : error + SimpleQueue A :=
  let l := list q ++ [item] in
  if bool_decide (Z.of_nat (length l) > maxlen q) then
    match pop0 l with
    | inl e => inl e
    | inr (_, l') => inr (mkQueue (maxlen q) l')
    end
  else inr (mkQueue (maxlen q) l).

Definition dequeue {A} (q : SimpleQueue A) : error + A * SimpleQueue A :=
  match pop0 (list q) with
  | inl e => inl e
  | inr (x, l') => inr (x, mkQueue (maxlen q) l')
  end.

(** [for item in alist: self.append(item)] *)
Fixpoint append_each {A} (q : SimpleQueue A) (alist : Datatypes.list A)
  : error + SimpleQueue A :=
  match alist with
  | [] => inr q
  | item :: alist' =>
      match append q item with
      | inl e => inl e
      | inr q' => append_each q' alist'
      end
  end.

Definition listAppend {A} (q : SimpleQueue A) (alist : Datatypes.list A)
  : error + SimpleQueue A :=
  if bool_decide (Z.of_nat (length alist) + Z.of_nat (length (list q))
                  ≤ maxlen q)
  then append_each q alist
  else inl ValueError.

(** [n] calls of [dequeue], with the items returned *)
Fixpoint dequeue_n {A} (n : nat) (q : SimpleQueue A)
  : error + Datatypes.list A * SimpleQueue A :=
  match n with
  | O => inr ([], q)
  | S n' =>
      match dequeue q with
      | inl e => inl e
      | inr (x, q') =>
          match dequeue_n n' q' with
          | inl e => inl e
          | inr (xs, q'') => inr (x :: xs, q'')
          end
      end
  end.

End simpleQueue.

Module sQ := simpleQueue.

(** ** What the properties are stated with *)

Module spec.

(** [not (q < p)] on priorities *)
Definition prio_le (p q : pQ.prio) : Prop := pQ.prio_ltb q p = false.

(** heap order: the priority at a non-root index [i] is not below the
    priority at its parent [i / 2] *)
Definition heap_order (h : pQ.BinaryHeap) : Prop :=
  ∀ i a b, 2 ≤ i →
    pQ.heapList h !! Z.to_nat (i / 2) = Some a →
    pQ.heapList h !! Z.to_nat i = Some b → prio_le a.1 b.1.

(** heap order below the indices from [k] on *)
Definition ordered_from (k : Z) (l : list pQ.entry) : Prop :=
  ∀ j a b, 2 ≤ j → k ≤ j / 2 →
    l !! Z.to_nat (j / 2) = Some a → l !! Z.to_nat j = Some b →
    prio_le a.1 b.1.

(** what [percUp] has at index [i]: heap order but for the pair of [i] and
    its parent, and the parent of [i] not above the children of [i] *)
Definition up_inv (l : list pQ.entry) (i : Z) : Prop :=
  (∀ j a b, 2 ≤ j → j ≠ i →
     l !! Z.to_nat (j / 2) = Some a → l !! Z.to_nat j = Some b →
     prio_le a.1 b.1) ∧
  (∀ c a b, 2 ≤ i → c / 2 = i →
     l !! Z.to_nat (i / 2) = Some a → l !! Z.to_nat c = Some b →
     prio_le a.1 b.1).

(** what [percDown] has at index [i], for the indices from [k] on: heap
    order but for the pairs of [i] and its children, and the parent of [i]
    not above the children of [i] *)
Definition down_inv (k : Z) (l : list pQ.entry) (i : Z) : Prop :=
  (∀ j a b, 2 ≤ j → k ≤ j / 2 → j / 2 ≠ i →
     l !! Z.to_nat (j / 2) = Some a → l !! Z.to_nat j = Some b →
     prio_le a.1 b.1) ∧
  (∀ c a b, 2 ≤ i → k ≤ i / 2 → c / 2 = i →
     l !! Z.to_nat (i / 2) = Some a → l !! Z.to_nat c = Some b →
     prio_le a.1 b.1).

(** the layout every method but [editHeap] keeps: the sentinel at index 0
    and [currentSize] tuples after it *)
Definition shape (h : pQ.BinaryHeap) : Prop :=
  pQ.heapList h !! 0%nat = Some pQ.sentinel ∧
  Z.of_nat (length (pQ.heapList h)) = pQ.currentSize h + 1.

(** the tuples of a heap: the backing list without the sentinel slot *)
Definition queue (h : pQ.BinaryHeap) : list pQ.entry := tail (pQ.heapList h).

(** the layout every method keeps, [editHeap] included: [currentSize] is
    one less than the length of the backing list *)
Definition sized (h : pQ.BinaryHeap) : Prop :=
  Z.of_nat (length (pQ.heapList h)) = pQ.currentSize h + 1.

(** [v] is among [graph.getConns(u)] *)
Definition edge (g : graph.Graph) (u v : string) : Prop :=
  ∃ ns, graph.getConns g u = Ok (Some ns) ∧ v ∈ ns.

(** every consecutive pair of [l] is an edge *)
Fixpoint chain (g : graph.Graph) (l : list string) : Prop :=
  match l with
  | u :: l' =>
      match l' with
      | v :: _ => edge g u v ∧ chain g l'
      | [] => True
      end
  | [] => True
  end.

(** [l] is a directed path from [s] to [e] *)
Definition is_path (g : graph.Graph) (s e : string) (l : list string) : Prop :=
  head l = Some s ∧ last l = Some e ∧ chain g l.

(** some vertex reaches itself along at least one edge *)
Definition has_cycle (g : graph.Graph) : Prop := ∃ v, tc (edge g) v v.

(** what the two sets of [visit] satisfy between calls: a vertex on the
    path is visited, a visited vertex is a vertex of the graph, and the
    vertices that are visited and off the path (the finished ones) have
    their edges among themselves and lie on no cycle *)
Definition marks_inv (g : graph.Graph) (m : graph.marks) : Prop :=
  graph.path m ⊆ graph.visited m ∧
  (∀ x, x ∈ graph.visited m → x ∈ graph.vertexList g) ∧
  (∀ b n, b ∈ graph.visited m → b ∉ graph.path m → edge g b n →
          n ∈ graph.visited m ∧ n ∉ graph.path m) ∧
  (∀ b, b ∈ graph.visited m → b ∉ graph.path m → ¬ tc (edge g) b b).

(** how many vertices of the graph [visit] has not marked yet *)
Definition unvisited (g : graph.Graph) (m : graph.marks) : nat :=
  size ((list_to_set (graph.vertexList g) : gset string) ∖ graph.visited m).

(** what a call of [visit] on [v] that started with the marks [m] gives:
    [True] only on a graph with a cycle; with [False], [v] is marked and
    the path set is as before *)
Definition visit_post (g : graph.Graph) (v : string) (m : graph.marks)
    (b : bool) (m' : graph.marks) : Prop :=
  if b then has_cycle g
  else marks_inv g m' ∧ graph.path m' = graph.path m ∧
       graph.visited m ⊆ graph.visited m' ∧ v ∈ graph.visited m'.

(** the distance [Dijkstra] first records for a vertex *)
Definition initial_dist (source v : string) : pQ.prio :=
  if bool_decide (v ≠ source) then pQ.Inf else pQ.Fin 0.

(** the edge from [u] to [w] needs no relaxation: [dist[w] <= dist[u] + 1] *)
Definition relaxed (dist : gmap string pQ.prio) (u w : string) : Prop :=
  ∀ du dw, dist !! u = Some du → dist !! w = Some dw →
           prio_le dw (pQ.prio_succ du).

(** the number of vertices with a finite distance *)
Definition finite_count (g : graph.Graph) (dist : gmap string pQ.prio) : nat :=
  sum_list_with
    (λ v, match dist !! v with Some (pQ.Fin _) => 1%nat | _ => 0%nat end)
    (graph.vertexList g).

(** the sum of the distances, an infinite one counting as the number of
    vertices: every relaxation lowers it *)
Definition potential (g : graph.Graph) (dist : gmap string pQ.prio) : nat :=
  sum_list_with
    (λ v, match dist !! v with
          | Some (pQ.Fin d) => Z.to_nat d
          | Some pQ.Inf => length (graph.vertexList g)
          | None => 0%nat
          end) (graph.vertexList g).

(** what [dist] and [pq] satisfy in the [while] loop of [Dijkstra]: the
    heap has its sentinel, no key is queued twice, a queued tuple carries
    the distance recorded for its key, [dist] has the vertices as keys, the
    source is at distance 0, and a finite distance is the length of a walk
    from the source and less than the number of finite distances *)
Definition dijkstra_inv (g : graph.Graph) (source : string)
    (dist : gmap string pQ.prio) (pq : pQ.BinaryHeap) : Prop :=
  shape pq ∧ NoDup (queue pq).*2 ∧
  (∀ p k, (p, k) ∈ queue pq → dist !! k = Some p) ∧
  (∀ v, v ∈ graph.vertexList g ↔ is_Some (dist !! v)) ∧
  dist !! source = Some (pQ.Fin 0) ∧
  (∀ v d, dist !! v = Some (pQ.Fin d) →
          0 ≤ d ∧ nsteps (edge g) (Z.to_nat d) source v ∧
          (Z.to_nat d < finite_count g dist)%nat).

(** the edges out of the vertices that are not queued, [u] apart, need no
    relaxation *)
Definition settled (g : graph.Graph) (dist : gmap string pQ.prio)
    (pq : pQ.BinaryHeap) (u : option string) : Prop :=
  ∀ x w, x ∉ (queue pq).*2 → Some x ≠ u → edge g x w → relaxed dist x w.

(** what [addVertex] and [addConn] keep true of a graph: no vertex is
    listed twice, the listed vertices are the keys of [connections], and
    every edge ends in a listed vertex *)
Definition wf (g : graph.Graph) : Prop :=
  NoDup (graph.vertexList g) ∧
  (∀ v, v ∈ graph.vertexList g ↔ is_Some (graph.connections g !! v)) ∧
  (∀ v ns n, graph.connections g !! v = Some ns → n ∈ ns →
             n ∈ graph.vertexList g).

(** the graph of a list of [addConn] calls *)
Definition build (conns : list (string * string)) : result graph.Graph :=
  foldl (λ r c, g ← r; graph.addConn g c.1 c.2) (Ok graph.init) conns.

(** the graph of the doctests of [find_shortest_path] and [Dijkstra] *)
Definition doctest_graph : graph.Graph :=
  graph.mkGraph ["A"; "B"; "C"; "D"]%string
    (<["A" := ["B"; "C"]]> (<["B" := ["C"]]> (<["C" := ["D"]]>
       (<["D" := []]> ∅))))%string.

End spec.

Import spec.

(** * Proofs *)

Local Open Scope string_scope.
Local Open Scope list_scope.
Local Open Scope nat_scope.
Local Set Warnings "-clear-no-such-hyp".

Example insert_doctest :
  pQ.insert_all pQ.init [(pQ.Fin 10, "a"); (pQ.Fin 2, "b"); (pQ.Fin 6, "c")]
  = Ok (pQ.mkHeap [pQ.sentinel; (pQ.Fin 2, "b"); (pQ.Fin 10, "a"); (pQ.Fin 6, "c")] 3).
Proof. vm_compute. reflexivity. Qed.

Example delMin_doctest :
  (h ← pQ.insert_all pQ.init [(pQ.Fin 3, "g"); (pQ.Fin 2, "a"); (pQ.Fin 4, "r")];
   pQ.delMin h)
  = Ok ((pQ.Fin 2, "a"),
        pQ.mkHeap [pQ.sentinel; (pQ.Fin 3, "g"); (pQ.Fin 4, "r")] 2).
Proof. vm_compute. reflexivity. Qed.

Example buildHeap_doctest :
  pQ.buildHeap [(pQ.Fin 1, "a"); (pQ.Fin 4, "b"); (pQ.Fin 2, "d")]
  = Ok (pQ.mkHeap [pQ.sentinel; (pQ.Fin 1, "a"); (pQ.Fin 4, "b"); (pQ.Fin 2, "d")] 3).
Proof. vm_compute. reflexivity. Qed.

Example find_shortest_path_doctest :
  (g ← build [("A", "B"); ("A", "C"); ("B", "C"); ("C", "D")];
   graph.find_shortest_path g "A" "D") = Ok (Some ["A"; "C"; "D"]).
Proof. vm_compute. reflexivity. Qed.

Example Dijkstra_doctest :
  (g ← build [("A", "B"); ("A", "C"); ("B", "C"); ("C", "D")];
   d ← graph.Dijkstra 10 g "A"; Ok (d !! "D")) = Ok (Some (pQ.Fin 2)).
Proof. vm_compute. reflexivity. Qed.

(** ** Membership and the sentinel *)

Lemma in_tuple_spec (x : pQ.value) (t : pQ.entry) :
  pQ.in_tuple x t = true ↔ x = pQ.VNum t.1 ∨ x = pQ.VStr t.2.
Proof.
  unfold pQ.in_tuple. rewrite orb_true_iff, !bool_decide_eq_true. done.
Qed.

(** C10: [x in h] holds exactly when [x] is the priority or the key of some
    tuple of the backing list, the sentinel included: after
    [insert((2, 'a'))] on a fresh heap [2 in h] holds, and on a fresh heap
    both [0 in h] and ['0' in h] hold. *)
Theorem contains_either_component :
  (∀ (h : pQ.BinaryHeap) (x : pQ.value),
     pQ.contains h x = true ↔
     ∃ t, t ∈ pQ.heapList h ∧ (x = pQ.VNum t.1 ∨ x = pQ.VStr t.2)) ∧
  (h ← pQ.insert pQ.init (pQ.Fin 2, "a");
   Ok (pQ.contains h (pQ.VNum (pQ.Fin 2)))) = Ok true ∧
  pQ.contains pQ.init (pQ.VNum (pQ.Fin 0)) = true ∧
  pQ.contains pQ.init (pQ.VStr "0") = true.
Proof.
  split; [|by vm_compute].
  intros h x. unfold pQ.contains. rewrite existsb_exists. split.
  - intros (t & Hin & Ht). exists t. split; [by apply list_elem_of_In|].
    by apply in_tuple_spec.
  - intros (t & Hin & Ht). exists t. split; [by apply list_elem_of_In|].
    by apply in_tuple_spec.
Qed.

(** C6 (the code departs from it): on a fresh heap, into which nobody has
    inserted the key ['0'], ['0' in heap] is [True], [display('0')] returns
    the sentinel, and [editHeap('0', (5, 'x'))] deletes the sentinel: the
    backing list becomes [[(5, 'x')]] with [currentSize] 0, a heap that
    [isEmpty] calls non-empty and on which [delMin] raises. *)
Theorem sentinel_taken_for_an_entry :
  pQ.contains pQ.init (pQ.VStr "0") = true ∧
  pQ.display pQ.init "0" = Some pQ.sentinel ∧
  pQ.editHeap pQ.init "0" (pQ.Fin 5, "x") = Ok (pQ.mkHeap [(pQ.Fin 5, "x")] 0) ∧
  pQ.isEmpty (pQ.mkHeap [(pQ.Fin 5, "x")] 0) = false ∧
  pQ.delMin (pQ.mkHeap [(pQ.Fin 5, "x")] 0) = Raise IndexError.
Proof. by vm_compute. Qed.

(** ** find_shortest_path from a vertex to itself *)

Lemma find_shortest_path_rec_same fuel g u p :
  graph.find_shortest_path_rec (S fuel) g u u p = Ok (Some (p ++ [u])).
Proof. simpl. by rewrite bool_decide_eq_true_2. Qed.

(** C7: for any graph and any vertex [u], in the graph or not,
    [find_shortest_path(G, u, u)] returns [[u]]. *)
Theorem find_shortest_path_refl (g : graph.Graph) (u : string) :
  graph.find_shortest_path g u u = Ok (Some [u]).
Proof. apply find_shortest_path_rec_same. Qed.

(** ** Dijkstra on a graph with a vertex named ['0'] *)

(** C1 (the code departs from it): on the graph of [addConn('A', '0')] the
    source ['A'] is a vertex and ['0'] is one edge away from it, so the
    claim wants the mapping with ['A'] at 0 and ['0'] at 1.  Relaxing the
    edge calls [editHeap('0', (1, '0'))], which deletes the sentinel instead
    of the entry of vertex ['0']; the third [delMin] then raises
    [IndexError], whatever the fuel of the loop. *)
Theorem Dijkstra_vertex_named_0 (fuel : nat) :
  (g ← graph.addConn graph.init "A" "0";
   Ok (graph.hasVert g "A", graph.find_shortest_path g "A" "0",
       graph.Dijkstra (3 + fuel) g "A"))
  = Ok (true, Ok (Some ["A"; "0"]), Raise IndexError).
Proof. by vm_compute. Qed.

(** ** Sequencing *)

Lemma bind_Ok {A B} (m : result A) (f : A → result B) (b : B) :
  m ≫= f = Ok b → ∃ a, m = Ok a ∧ f a = Ok b.
Proof. destruct m; [eauto|discriminate..]. Qed.

Ltac inv_bind H :=
  let a := fresh "a" in
  let Ha := fresh "Ha" in
  apply bind_Ok in H as (a & Ha & H).

(** ** Paths *)

Lemma getConns_Some g u ns :
  graph.getConns g u = Ok (Some ns) →
  u ∈ graph.vertexList g ∧ graph.connections g !! u = Some ns.
Proof.
  unfold graph.getConns, graph.hasVert. case_bool_decide; simpl; [|done].
  destruct (graph.connections g !! u); naive_solver.
Qed.

Lemma edge_source g u v : edge g u v → u ∈ graph.vertexList g.
Proof. intros (ns & Hc & _). by apply getConns_Some in Hc as [? _]. Qed.

Lemma chain_tail g u l : chain g (u :: l) → chain g l.
Proof. destruct l; [done|]. by intros [_ ?]. Qed.

Lemma chain_suffix g l1 l2 : chain g (l1 ++ l2) → chain g l2.
Proof.
  induction l1 as [|u l1 IH]; [done|]. intros H. by apply IH, (chain_tail g u).
Qed.

Lemma is_path_cons g s n e l :
  edge g s n → is_path g n e l → is_path g s e (s :: l).
Proof.
  intros He (Hh & Hl & Hc). destruct l as [|n' l]; simplify_eq/=.
  split_and!; [done| |done]. by rewrite last_cons, Hl.
Qed.

Lemma is_path_inv g s e l :
  is_path g s e l → s ≠ e →
  ∃ n l', l = s :: l' ∧ edge g s n ∧ is_path g n e l'.
Proof.
  intros (Hh & Hl & Hc) Hne. destruct l as [|s' [|n l]]; simplify_eq/=.
  destruct Hc as [He Hc]. exists n, (n :: l). split_and!; try done.
Qed.

(** the last vertex of a path of two or more vertices is the end of an edge *)
Lemma chain_last_edge g l u e :
  chain g (u :: l) → last (u :: l) = Some e → l ≠ [] → ∃ x, edge g x e.
Proof.
  revert u. induction l as [|v l IH]; [done|]. intros u [He Hc] Hl _.
  destruct l as [|w l]; [simplify_eq/=; eauto|].
  apply (IH v); [done|exact Hl|done].
Qed.

Lemma is_path_endpoints g s e l :
  (∀ u v, edge g u v → v ∈ graph.vertexList g) →
  is_path g s e l → s ≠ e →
  s ∈ graph.vertexList g ∧ e ∈ graph.vertexList g.
Proof.
  intros Hcl Hp Hne. destruct (is_path_inv _ _ _ _ Hp Hne) as (n & l' & -> & He & Hp').
  split; [by eapply edge_source|].
  destruct Hp as (_ & Hl & Hc).
  destruct (chain_last_edge g l' s e) as [x Hx]; eauto.
  destruct Hp' as [Hh _]. by destruct l'.
Qed.

(** every path holds a path without a repeated vertex that is not longer *)
Lemma simple_path g s e l :
  is_path g s e l → ∃ l', is_path g s e l' ∧ NoDup l' ∧ length l' ≤ length l.
Proof.
  revert s. induction l as [|u l IH]; intros s (Hh & Hl & Hc); [done|].
  simplify_eq/=. destruct l as [|n l].
  { exists [s]. split_and!; try done. apply NoDup_singleton. }
  destruct Hc as [He Hc].
  destruct (IH n) as (l' & Hp' & Hnd & Hlen).
  { by split_and!. }
  destruct (decide (s ∈ l')) as [Hin|Hin].
  - apply list_elem_of_split in Hin as (l1 & l2 & ->).
    exists (s :: l2). unfold is_path. split_and!.
    + done.
    + destruct Hp' as (_ & Hl' & _). rewrite last_app in Hl'.
      destruct (last (s :: l2)) eqn:E; [done|]. by apply last_None in E.
    + destruct Hp' as (_ & _ & Hc'). by apply chain_suffix in Hc'.
    + by apply NoDup_app in Hnd as (_ & _ & ?).
    + rewrite length_app in Hlen. simpl in *. lia.
  - exists (s :: l'). unfold is_path. split_and!.
    + done.
    + destruct Hp' as (Hh' & Hl' & _). destruct l'; [done|]. by rewrite last_cons, Hl'.
    + destruct Hp' as (Hh' & _ & Hc'). destruct l'; simplify_eq/=. done.
    + by apply NoDup_cons.
    + simpl in *. lia.
Qed.

(** ** find_shortest_path *)

(** what the loop keeps as [shortest]: if it ends with a path, the path was
    the one it started with or one the recursive call gave *)
Lemma find_shortest_path_loop_sound rec path nodes shortest P :
  graph.find_shortest_path_loop rec path nodes shortest = Ok (Some P) →
  shortest = Some P ∨ ∃ n, n ∈ nodes ∧ (n ∉ path) ∧ rec n = Ok (Some P).
Proof.
  revert shortest. induction nodes as [|node nodes IH]; intros shortest H; simpl in H.
  { left. congruence. }
  case_bool_decide as Hin.
  { destruct (IH _ H) as [?|(n & ? & ? & ?)]; [by left|].
    right. exists n. split_and!; try done. by right. }
  inv_bind H. inv_bind H.
  assert (a0 = a ∨ a0 = shortest) as Hor.
  { destruct (graph.truthy a); [|naive_solver].
    destruct (negb (graph.truthy shortest)); [naive_solver|].
    inv_bind Ha0. inv_bind Ha0. case_bool_decide; naive_solver. }
  destruct (IH _ H) as [Hs|(n & ? & ? & ?)].
  - destruct Hor as [->| ->]; [|by left]. subst a.
    right. exists node. split_and!; try done. by left.
  - right. exists n. split_and!; try done. by right.
Qed.

Lemma find_shortest_path_rec_sound fuel g s e p P :
  graph.find_shortest_path_rec fuel g s e p = Ok (Some P) →
  ∃ Q, P = p ++ Q ∧ is_path g s e Q ∧ (NoDup p → s ∉ p → NoDup P).
Proof.
  revert s p P. induction fuel as [|fuel IH]; intros s p P H; [done|].
  simpl in H. case_bool_decide as Hse.
  { simplify_eq. exists [e]. split_and!; try done.
    intros Hnd Hs. apply NoDup_app. split_and!; [done| |apply NoDup_singleton].
    intros x Hx ->%list_elem_of_singleton. done. }
  destruct (negb (graph.hasVert g s) || negb (graph.hasVert g e)); [done|].
  inv_bind H. inv_bind H. destruct a as [ns|]; simplify_eq/=.
  apply find_shortest_path_loop_sound in H as [?|(n & Hn & Hnp & Hrec)]; [done|].
  apply IH in Hrec as (Q & -> & Hp & Hnd).
  exists (s :: Q). split_and!.
  - by rewrite <- app_assoc.
  - eapply is_path_cons; [|done]. by exists a0.
  - intros Hndp Hs. apply Hnd; [|done].
    apply NoDup_app. split_and!; [done| |apply NoDup_singleton].
    intros x Hx ->%list_elem_of_singleton. done.
Qed.

(** the loop on total recursive calls: it ends, with [None] only if every
    call gave [None], and else with a path no longer than any path given *)
Lemma find_shortest_path_loop_total rec path nodes shortest :
  (∀ n, n ∈ nodes → n ∉ path → ∃ r, rec n = Ok r ∧ r ≠ Some []) →
  shortest ≠ Some [] →
  ∃ r, graph.find_shortest_path_loop rec path nodes shortest = Ok r ∧
       r ≠ Some [] ∧
       (r = None → shortest = None ∧
                   ∀ n, n ∈ nodes → n ∉ path → rec n = Ok None) ∧
       (∀ P, r = Some P →
          (∀ S, shortest = Some S → length P ≤ length S)%nat ∧
          (∀ n P', n ∈ nodes → n ∉ path → rec n = Ok (Some P') →
                   length P ≤ length P')%nat).
Proof.
  revert shortest. induction nodes as [|node nodes IH]; intros shortest Hrec Hs; simpl.
  { exists shortest. split_and!; try done.
    - intros ->. split; [done|]. by intros n ?%elem_of_nil.
    - intros P ->. split; [by intros S [= ->]|]. by intros n P' ?%elem_of_nil. }
  assert (∀ n, n ∈ nodes → n ∉ path → ∃ r, rec n = Ok r ∧ r ≠ Some []) as Hrec'.
  { intros n Hn. apply Hrec. by right. }
  case_bool_decide as Hin.
  { destruct (IH shortest Hrec' Hs) as (r & Hr & Hne & HN & HS).
    exists r. split_and!; try done.
    - intros Hr0. destruct (HN Hr0) as [? Hall]. split; [done|].
      intros n [->|Hn]%elem_of_cons ?; [done|]. by apply Hall.
    - intros P HP. destruct (HS P HP) as [H1 H2]. split; [done|].
      intros n P' [->|Hn]%elem_of_cons ?; [done|]. by apply H2. }
  destruct (Hrec node) as (newpath & Hnew & Hnewne); [by left|done|].
  rewrite Hnew. simpl.
  destruct newpath as [[|x np]|]; [done| |]; simpl.
  - (* the call gave a path *)
    destruct shortest as [[|y sh]|]; [done| |]; simpl.
    + case_bool_decide as Hlt; simpl.
      * destruct (IH (Some (x :: np)) Hrec') as (r & Hr & Hne & HN & HS); [done|].
        exists r. split_and!; try done.
        { intros Hr0. by destruct (HN Hr0). }
        intros P HP. destruct (HS P HP) as [H1 H2]. split.
        { intros S [= <-]. specialize (H1 _ eq_refl). simpl in *. lia. }
        intros n P' [->|Hn]%elem_of_cons ? Hn'; [|by eapply H2].
        rewrite Hnew in Hn'. simplify_eq. by apply H1.
      * destruct (IH (Some (y :: sh)) Hrec') as (r & Hr & Hne & HN & HS); [done|].
        exists r. split_and!; try done.
        { intros Hr0. by destruct (HN Hr0). }
        intros P HP. destruct (HS P HP) as [H1 H2]. split; [done|].
        intros n P' [->|Hn]%elem_of_cons ? Hn'; [|by eapply H2].
        rewrite Hnew in Hn'. simplify_eq. specialize (H1 _ eq_refl). simpl in *. lia.
    + destruct (IH (Some (x :: np)) Hrec') as (r & Hr & Hne & HN & HS); [done|].
      exists r. split_and!; try done.
      { intros Hr0. by destruct (HN Hr0). }
      intros P HP. destruct (HS P HP) as [H1 H2]. split; [done|].
      intros n P' [->|Hn]%elem_of_cons ? Hn'; [|by eapply H2].
      rewrite Hnew in Hn'. simplify_eq. by apply H1.
  - (* the call gave [None] *)
    destruct (IH shortest Hrec' Hs) as (r & Hr & Hne & HN & HS).
    exists r. split_and!; try done.
    + intros Hr0. destruct (HN Hr0) as [? Hall]. split; [done|].
      intros n [->|Hn]%elem_of_cons ?; [done|]. by apply Hall.
    + intros P HP. destruct (HS P HP) as [H1 H2]. split; [done|].
      intros n P' [->|Hn]%elem_of_cons ? Hn'; [congruence|]. by eapply H2.
Qed.

Lemma getConns_wf g u :
  (∀ v, v ∈ graph.vertexList g → is_Some (graph.connections g !! v)) →
  u ∈ graph.vertexList g → ∃ ns, graph.getConns g u = Ok (Some ns).
Proof.
  intros Hk Hu. unfold graph.getConns, graph.hasVert.
  rewrite bool_decide_eq_true_2 by done. simpl.
  destruct (Hk u Hu) as [ns ->]. eauto.
Qed.

Lemma NoDup_snoc (p : list string) (s : string) :
  NoDup p → s ∉ p → NoDup (p ++ [s]).
Proof.
  intros Hnd Hs. apply NoDup_app. split_and!; [done| |apply NoDup_singleton].
  by intros x Hx ->%list_elem_of_singleton.
Qed.

(** the search from [s] with the vertices of [p] already on the path: it
    returns, and what it returns is no longer than [p] followed by any path
    from [s] to [e] that repeats no vertex and avoids [p] *)
Lemma find_shortest_path_rec_complete fuel g s e p :
  (∀ v, v ∈ graph.vertexList g → is_Some (graph.connections g !! v)) →
  (∀ u v, edge g u v → v ∈ graph.vertexList g) →
  NoDup p → s ∉ p → (∀ x, x ∈ p → x ∈ graph.vertexList g) →
  (length (graph.vertexList g) < fuel + length p)%nat →
  ∃ r, graph.find_shortest_path_rec fuel g s e p = Ok r ∧ r ≠ Some [] ∧
       ∀ Q, is_path g s e Q → NoDup Q → (∀ x, x ∈ Q → x ∉ p) →
            ∃ P, r = Some P ∧ (length P ≤ length p + length Q)%nat.
Proof.
  intros Hk Hcl. revert s p.
  induction fuel as [|fuel IH]; intros s p Hnd Hs Hsub Hfuel.
  { assert (length p ≤ length (graph.vertexList g))%nat; [|lia].
    apply submseteq_length, NoDup_submseteq; done. }
  simpl. case_bool_decide as Hse.
  { eexists. split_and!; [done|by destruct p|].
    intros Q (Hh & _) _ _. eexists. split; [done|].
    rewrite length_app. destruct Q; simpl in *; [done|lia]. }
  destruct (negb (graph.hasVert g s) || negb (graph.hasVert g e)) eqn:Hv.
  { exists None. split_and!; try done.
    intros Q HQ _ _. exfalso.
    destruct (is_path_endpoints g s e Q) as [H1 H2]; try done.
    unfold graph.hasVert in Hv.
    rewrite !bool_decide_eq_true_2 in Hv by done. done. }
  apply orb_false_iff in Hv as [Hvs Hve].
  apply negb_false_iff, bool_decide_eq_true in Hvs.
  destruct (getConns_wf g s Hk Hvs) as [ns Hns]. rewrite Hns. simpl.
  destruct (find_shortest_path_loop_total
              (λ node, graph.find_shortest_path_rec fuel g node e (p ++ [s]))
              (p ++ [s]) ns None) as (r & Hr & Hrne & HN & HS); [|done|].
  { intros n Hn Hnp.
    destruct (IH n (p ++ [s])) as (r & Hr & Hrne & _); eauto.
    - by apply NoDup_snoc.
    - intros x [?| ->%list_elem_of_singleton]%elem_of_app; eauto.
    - rewrite length_app. simpl. lia. }
  exists r. split_and!; try done.
  intros Q HQ HQnd HQp.
  destruct (is_path_inv g s e Q HQ Hse) as (n & Q' & -> & (ns' & Hns' & Hn) & HQ').
  rewrite Hns in Hns'. simplify_eq.
  apply NoDup_cons in HQnd as [HsQ' HQ'nd].
  assert (∀ x, x ∈ Q' → x ∉ p ++ [s]) as HQ'p.
  { intros x Hx [Hxp| ->%list_elem_of_singleton]%elem_of_app; [|done].
    by apply (HQp x); [right|]. }
  assert (n ∈ Q') as HnQ'.
  { destruct HQ' as (Hh & _). destruct Q'; simplify_eq/=. by left. }
  destruct (IH n (p ++ [s])) as (r' & Hr' & _ & Hmin).
  { by apply NoDup_snoc. }
  { by apply HQ'p. }
  { intros x [?| ->%list_elem_of_singleton]%elem_of_app; eauto. }
  { rewrite length_app. simpl. lia. }
  destruct (Hmin Q' HQ' HQ'nd HQ'p) as (P' & -> & Hlen).
  destruct r as [P|].
  - exists P. split; [done|].
    destruct (HS P eq_refl) as [_ H2].
    specialize (H2 n P' Hn (HQ'p n HnQ') Hr').
    rewrite length_app in Hlen. simpl in *. lia.
  - destruct (HN eq_refl) as [_ Hall].
    specialize (Hall n Hn (HQ'p n HnQ')). simpl in Hall. congruence.
Qed.

Lemma wf_closed g u v : wf g → edge g u v → v ∈ graph.vertexList g.
Proof.
  intros (_ & _ & Hcl) (ns & Hc & Hv).
  apply getConns_Some in Hc as [_ Hc]. eauto.
Qed.

Lemma wf_keys g v :
  wf g → v ∈ graph.vertexList g → is_Some (graph.connections g !! v).
Proof. intros (_ & Hk & _). apply Hk. Qed.

(** C5: if [find_shortest_path(G, u, v)] returns a path [P], then [P] starts
    with [u], ends with [v], every consecutive pair of [P] is an edge of
    [G], and no vertex occurs twice in [P]. *)
Theorem find_shortest_path_is_simple_path g u v P :
  graph.find_shortest_path g u v = Ok (Some P) →
  head P = Some u ∧ last P = Some v ∧ chain g P ∧ NoDup P.
Proof.
  intros H. apply find_shortest_path_rec_sound in H as (Q & -> & Hp & Hnd).
  simpl. destruct Hp as (? & ? & ?). split_and!; try done.
  apply Hnd; [apply NoDup_nil_2|apply not_elem_of_nil].
Qed.

Lemma find_shortest_path_is_simple_path_witness :
  head ["A"; "C"; "D"] = Some "A" ∧ last ["A"; "C"; "D"] = Some "D" ∧
  chain doctest_graph ["A"; "C"; "D"] ∧ NoDup ["A"; "C"; "D"].
Proof.
  apply (find_shortest_path_is_simple_path doctest_graph "A" "D").
  vm_compute. reflexivity.
Defined.

Lemma find_shortest_path_spec g s e :
  wf g →
  ∃ r, graph.find_shortest_path g s e = Ok r ∧
       (s = e → r = Some [s]) ∧
       (s ≠ e → s ∉ graph.vertexList g ∨ e ∉ graph.vertexList g → r = None) ∧
       (∀ P, r = Some P →
             is_path g s e P ∧
             ∀ Q, is_path g s e Q → (length P ≤ length Q)%nat) ∧
       (r = None → ∀ Q, ¬ is_path g s e Q).
Proof.
  intros Hwf.
  destruct (find_shortest_path_rec_complete
              (S (length (graph.vertexList g))) g s e [])
    as (r & Hr & _ & Hmin).
  { intros v. by apply wf_keys. }
  { intros u v. by apply wf_closed. }
  { apply NoDup_nil_2. }
  { apply not_elem_of_nil. }
  { by intros x ?%elem_of_nil. }
  { simpl. lia. }
  assert (∀ Q, is_path g s e Q → ∃ P, r = Some P ∧ (length P ≤ length Q)%nat) as Hall.
  { intros Q HQ. destruct (simple_path g s e Q HQ) as (Q' & HQ' & Hnd & Hlen).
    destruct (Hmin Q' HQ' Hnd) as (P & HP & HlenP).
    { intros x _. apply not_elem_of_nil. }
    exists P. split; [done|]. simpl in *. lia. }
  exists r. split_and!; try done.
  - intros ->.
    rewrite (find_shortest_path_rec_same _ g e []) in Hr. by simplify_eq/=.
  - intros Hne Hmiss. destruct r as [P|]; [|done].
    apply find_shortest_path_rec_sound in Hr as (Q & HP & HQ & _).
    destruct (is_path_endpoints g s e Q); try done; [|tauto].
    intros a b. by apply wf_closed.
  - intros P ->. split.
    + apply find_shortest_path_rec_sound in Hr as (Q & HP & HQ & _).
      by simplify_eq/=.
    + intros Q HQ. destruct (Hall Q HQ) as (P' & ? & ?). by simplify_eq.
  - intros -> Q HQ. by destruct (Hall Q HQ) as (P' & ? & ?).
Qed.

(** ** Graphs made by [addVertex] and [addConn] are well formed *)

Lemma wf_init : wf graph.init.
Proof.
  split_and!; simpl.
  - apply NoDup_nil_2.
  - intros v. rewrite lookup_empty. split; [by intros ?%elem_of_nil|by intros [? ?]].
  - intros v ns n. by rewrite lookup_empty.
Qed.

Lemma wf_addVertex g v : wf g → wf (graph.addVertex g v).
Proof.
  intros (Hnd & Hk & Hcl). unfold graph.addVertex.
  case_bool_decide as Hv; [done|]. split_and!; simpl.
  - apply NoDup_app. split_and!; [done| |apply NoDup_singleton].
    by intros x Hx ->%list_elem_of_singleton.
  - intros x. rewrite elem_of_app, list_elem_of_singleton, lookup_insert_is_Some, Hk.
    destruct (decide (v = x)); intuition congruence.
  - intros x ns n. rewrite lookup_insert. case_decide.
    + intros [= <-]. by intros ?%elem_of_nil.
    + intros Hx Hn. apply elem_of_app. left. eauto.
Qed.

Lemma addVertex_elem g v : v ∈ graph.vertexList (graph.addVertex g v).
Proof.
  unfold graph.addVertex. case_bool_decide; [done|]. simpl.
  apply elem_of_app. right. by left.
Qed.

Lemma addVertex_mono g v x :
  x ∈ graph.vertexList g → x ∈ graph.vertexList (graph.addVertex g v).
Proof.
  unfold graph.addVertex. case_bool_decide; [done|]. simpl.
  intros. apply elem_of_app. by left.
Qed.

Lemma wf_addConn g v1 v2 :
  wf g → ∃ g', graph.addConn g v1 v2 = Ok g' ∧ wf g'.
Proof.
  intros Hwf. unfold graph.addConn.
  set (g1 := if bool_decide (v1 ∈ graph.vertexList g) then g
             else graph.addVertex g v1).
  set (g2 := if bool_decide (v2 ∈ graph.vertexList g1) then g1
             else graph.addVertex g1 v2).
  assert (wf g1 ∧ v1 ∈ graph.vertexList g1) as [Hwf1 Hv1].
  { unfold g1. case_bool_decide; [done|].
    split; [by apply wf_addVertex|apply addVertex_elem]. }
  assert (wf g2 ∧ v1 ∈ graph.vertexList g2 ∧ v2 ∈ graph.vertexList g2)
    as (Hwf2 & Hv12 & Hv2).
  { unfold g2. case_bool_decide; [done|].
    split_and!; [by apply wf_addVertex|by apply addVertex_mono|apply addVertex_elem]. }
  destruct (wf_keys g2 v1 Hwf2 Hv12) as [ns Hns]. rewrite Hns.
  case_bool_decide as Hin; [eauto|].
  eexists. split; [done|].
  destruct Hwf2 as (Hnd & Hk & Hcl). split_and!; simpl; [done|..].
  - intros x. rewrite lookup_insert_is_Some, Hk.
    destruct (decide (v1 = x)) as [<-|]; [|intuition congruence].
    split; [auto|]. intros _. by rewrite <- Hk.
  - intros x ms n. rewrite lookup_insert. case_decide.
    + intros [= <-]. intros [?| ->%list_elem_of_singleton]%elem_of_app; eauto.
    + eauto.
Qed.

Lemma build_from_wf conns r :
  (∃ g, r = Ok g ∧ wf g) →
  ∃ g, foldl (λ r c, g ← r; graph.addConn g c.1 c.2) r conns = Ok g ∧ wf g.
Proof.
  revert r. induction conns as [|c conns IH]; intros r (g & -> & Hwf); simpl; [eauto|].
  apply IH. by apply wf_addConn.
Qed.

(** every sequence of [addConn] calls on a new graph succeeds and gives a
    well-formed graph *)
Lemma build_wf conns : ∃ g, build conns = Ok g ∧ wf g.
Proof. apply build_from_wf. exists graph.init. split; [done|apply wf_init]. Qed.

Lemma build_Ok_wf conns g : build conns = Ok g → wf g.
Proof. intros H. destruct (build_wf conns) as (g' & Hg' & Hwf). congruence. Qed.

(** C3, as the code has it: on a well-formed graph the search returns; from
    a vertex to itself it returns the one-vertex path, in the graph or not;
    between two different vertices it returns [None] when one of them is
    not in the graph; a returned path is a directed path from [start] to
    [end] with the fewest vertices of all such paths; and [None] is returned
    only when there is no directed path. *)
Theorem find_shortest_path_shortest g s e :
  wf g →
  ∃ r, graph.find_shortest_path g s e = Ok r ∧
       (s = e → r = Some [s]) ∧
       (s ≠ e → s ∉ graph.vertexList g ∨ e ∉ graph.vertexList g → r = None) ∧
       (∀ P, r = Some P →
             is_path g s e P ∧
             ∀ Q, is_path g s e Q → (length P ≤ length Q)%nat) ∧
       (r = None → ∀ Q, ¬ is_path g s e Q).
Proof. apply find_shortest_path_spec. Qed.

Lemma doctest_graph_built :
  build [("A", "B"); ("A", "C"); ("B", "C"); ("C", "D")] = Ok doctest_graph.
Proof. vm_compute. reflexivity. Qed.

Lemma find_shortest_path_shortest_witness :
  ∃ r, graph.find_shortest_path doctest_graph "A" "D" = Ok r ∧
       ("A" = "D" → r = Some ["A"]) ∧
       ("A" ≠ "D" → "A" ∉ graph.vertexList doctest_graph ∨
                    "D" ∉ graph.vertexList doctest_graph → r = None) ∧
       (∀ P, r = Some P →
             is_path doctest_graph "A" "D" P ∧
             ∀ Q, is_path doctest_graph "A" "D" Q → (length P ≤ length Q)%nat) ∧
       (r = None → ∀ Q, ¬ is_path doctest_graph "A" "D" Q).
Proof.
  apply find_shortest_path_shortest.
  apply (build_Ok_wf [("A", "B"); ("A", "C"); ("B", "C"); ("C", "D")]).
  vm_compute. reflexivity.
Defined.

(** C3 as it is written fails: with [start == end] and that vertex not in
    the graph, the search returns the one-vertex path, not [None]. *)
Lemma find_shortest_path_absent_not_None :
  ¬ (∀ g s e, wf g →
       s ∉ graph.vertexList g ∨ e ∉ graph.vertexList g →
       graph.find_shortest_path g s e = Ok None).
Proof.
  intros H.
  specialize (H graph.init "K" "K" wf_init (or_introl (not_elem_of_nil _))).
  vm_compute in H. discriminate.
Qed.

(** ** The binary heap *)

Section heap.
Local Open Scope Z_scope.

Ltac zlia := Z.div_mod_to_equations; lia.

(** *** Priorities *)

Lemma prio_le_refl p : prio_le p p.
Proof. destruct p; unfold prio_le; simpl; [|done]. apply bool_decide_eq_false. lia. Qed.

Lemma prio_le_trans p q r : prio_le p q → prio_le q r → prio_le p r.
Proof.
  unfold prio_le. destruct p, q, r; simpl; try done.
  rewrite !bool_decide_eq_false. lia.
Qed.

Lemma prio_ltb_le p q : pQ.prio_ltb p q = true → prio_le p q.
Proof.
  unfold prio_le. destruct p, q; simpl; try done.
  rewrite bool_decide_eq_true, bool_decide_eq_false. lia.
Qed.

Lemma tuple_ltb_true a b : pQ.tuple_ltb a b = true → prio_le a.1 b.1.
Proof.
  unfold pQ.tuple_ltb. case_bool_decide as H.
  - intros _. rewrite H. apply prio_le_refl.
  - apply prio_ltb_le.
Qed.

Lemma tuple_ltb_false a b : pQ.tuple_ltb a b = false → prio_le b.1 a.1.
Proof.
  unfold pQ.tuple_ltb. case_bool_decide as H; [|done].
  intros _. rewrite H. apply prio_le_refl.
Qed.

Lemma tuple_gtb_true a b : pQ.tuple_gtb a b = true → prio_le b.1 a.1.
Proof.
  unfold pQ.tuple_gtb. case_bool_decide as H.
  - intros _. rewrite H. apply prio_le_refl.
  - apply prio_ltb_le.
Qed.

Lemma tuple_gtb_false a b : pQ.tuple_gtb a b = false → prio_le a.1 b.1.
Proof.
  unfold pQ.tuple_gtb. case_bool_decide as H; [|done].
  intros _. rewrite H. apply prio_le_refl.
Qed.

(** *** Python list accesses at indices in range *)

Lemma getitem_lookup {A} (l : list A) i x :
  0 ≤ i → l !! Z.to_nat i = Some x → Py.getitem l i = Ok x.
Proof.
  intros Hi Hx. pose proof (lookup_lt_Some _ _ _ Hx) as Hlt. unfold Py.getitem.
  rewrite (bool_decide_eq_false_2 (i < 0)) by lia.
  rewrite bool_decide_eq_true_2 by lia. by rewrite Hx.
Qed.

Lemma getitem_in_range {A} (l : list A) i :
  0 ≤ i < Z.of_nat (length l) → ∃ x, l !! Z.to_nat i = Some x ∧ Py.getitem l i = Ok x.
Proof.
  intros Hi. destruct (lookup_lt_is_Some_2 l (Z.to_nat i)) as [x Hx]; [lia|].
  exists x. split; [done|]. apply getitem_lookup; [lia|done].
Qed.

Lemma setitem_insert {A} (l : list A) i x :
  0 ≤ i < Z.of_nat (length l) → Py.setitem l i x = Ok (<[Z.to_nat i := x]> l).
Proof.
  intros Hi. unfold Py.setitem.
  rewrite (bool_decide_eq_false_2 (i < 0)) by lia.
  by rewrite bool_decide_eq_true_2 by lia.
Qed.

Lemma swap_insert {A} (l : list A) i j a b :
  0 ≤ i → 0 ≤ j → l !! Z.to_nat i = Some b → l !! Z.to_nat j = Some a →
  Py.swap l i j = Ok (<[Z.to_nat j := b]> (<[Z.to_nat i := a]> l)).
Proof.
  intros Hi Hj Hb Ha. unfold Py.swap.
  pose proof (lookup_lt_Some _ _ _ Hb). pose proof (lookup_lt_Some _ _ _ Ha).
  rewrite (getitem_lookup l j a), (getitem_lookup l i b) by done. simpl.
  rewrite setitem_insert by lia. simpl.
  rewrite setitem_insert; [done|]. rewrite length_insert. lia.
Qed.

Lemma lookup_swapped {A} (l : list A) i j a b k :
  0 ≤ i → 0 ≤ j → 0 ≤ k → i ≠ j →
  l !! Z.to_nat i = Some b → l !! Z.to_nat j = Some a →
  <[Z.to_nat j := b]> (<[Z.to_nat i := a]> l) !! Z.to_nat k =
    if decide (k = j) then Some b
    else if decide (k = i) then Some a else l !! Z.to_nat k.
Proof.
  intros Hi Hj Hk Hij Hb Ha.
  pose proof (lookup_lt_Some _ _ _ Hb). pose proof (lookup_lt_Some _ _ _ Ha).
  destruct (decide (k = j)) as [->|Hkj].
  { apply list_lookup_insert_eq. rewrite length_insert. lia. }
  rewrite list_lookup_insert_ne by lia.
  destruct (decide (k = i)) as [->|Hki].
  { by apply list_lookup_insert_eq. }
  by rewrite list_lookup_insert_ne by lia.
Qed.

Lemma swapped_Permutation {A} (l : list A) i j a b :
  l !! i = Some b → l !! j = Some a → <[j := b]> (<[i := a]> l) ≡ₚ l.
Proof. intros. by apply Permutation_insert_swap. Qed.

(** *** percUp *)

Lemma up_inv_done l i : i ≤ 1 → up_inv l i → ordered_from 1 l.
Proof. intros Hi [H _] j a b Hj _. apply H; lia. Qed.

Lemma ordered_from_up_inv l i : ordered_from 1 l → up_inv l i.
Proof.
  intros H. split.
  - intros j a b Hj _. apply H; [done|zlia].
  - intros c a b Hi Hc Ha Hb.
    destruct (lookup_lt_is_Some_2 l (Z.to_nat i)) as [x Hx].
    { apply lookup_lt_Some in Hb. zlia. }
    apply prio_le_trans with x.1.
    + apply (H i); [done|zlia|done..].
    + apply (H c); [zlia|zlia|by rewrite Hc|done].
Qed.

Lemma up_inv_keep l i a b :
  2 ≤ i → l !! Z.to_nat i = Some a → l !! Z.to_nat (i / 2) = Some b →
  prio_le b.1 a.1 → up_inv l i → ordered_from 1 l.
Proof.
  intros Hi Ha Hb Hle [H _] j x y Hj _ Hx Hy.
  destruct (decide (j = i)) as [->|Hne]; [by simplify_eq|]. by apply (H j).
Qed.

Lemma up_inv_swap l i a b :
  2 ≤ i → l !! Z.to_nat i = Some a → l !! Z.to_nat (i / 2) = Some b →
  prio_le a.1 b.1 → up_inv l i →
  up_inv (<[Z.to_nat i := b]> (<[Z.to_nat (i / 2) := a]> l)) (i / 2).
Proof.
  intros Hi Ha Hb Hle [H1 H2].
  assert (∀ k, 0 ≤ k →
    <[Z.to_nat i := b]> (<[Z.to_nat (i / 2) := a]> l) !! Z.to_nat k =
      if decide (k = i) then Some b
      else if decide (k = i / 2) then Some a else l !! Z.to_nat k) as Hlk.
  { intros k Hk. apply lookup_swapped; try done; zlia. }
  split.
  - intros j x y Hj Hne. rewrite !Hlk by zlia.
    destruct (decide (j = i)) as [->|Hji].
    { rewrite decide_False by zlia. rewrite decide_True by done.
      by intros [= <-] [= <-]. }
    rewrite (decide_False _ _ Hne).
    destruct (decide (j / 2 = i)) as [Hp|Hp].
    { intros [= <-] Hy. by apply (H2 j b y). }
    destruct (decide (j / 2 = i / 2)) as [Hp'|Hp'].
    { intros [= <-] Hy. apply prio_le_trans with b.1; [done|].
      apply (H1 j); [done|done|by rewrite Hp'|done]. }
    intros Hx Hy. by apply (H1 j).
  - intros c x y Hi2 Hc. rewrite !Hlk by zlia.
    rewrite decide_False by zlia. rewrite (decide_False (P := i / 2 / 2 = i / 2)) by zlia.
    intros Hx.
    assert (prio_le x.1 b.1) as Hxb.
    { apply (H1 (i / 2)); [done|zlia|done..]. }
    destruct (decide (c = i)) as [->|Hci].
    { by intros [= <-]. }
    rewrite decide_False by zlia. intros Hy.
    apply prio_le_trans with b.1; [done|].
    apply (H1 c); [zlia|done|by rewrite Hc|done].
Qed.

Lemma percUp_spec fuel l cs i :
  (Z.to_nat i ≤ fuel)%nat → 0 ≤ i < Z.of_nat (length l) →
  ∃ l', pQ.percUp fuel (pQ.mkHeap l cs) i = Ok (pQ.mkHeap l' cs) ∧
        l' ≡ₚ l ∧ l' !! 0%nat = l !! 0%nat ∧
        (up_inv l i → ordered_from 1 l').
Proof.
  revert l i. induction fuel as [|fuel IH]; intros l i Hfuel Hi.
  { exists l. assert (i = 0) as -> by lia. simpl. split_and!; try done.
    by apply up_inv_done. }
  cbn [pQ.percUp]. case_bool_decide as Hgo; cycle 1.
  { exists l. split_and!; try done. apply up_inv_done. zlia. }
  simpl.
  destruct (getitem_in_range l i) as (a & Ha & ->); [lia|].
  destruct (getitem_in_range l (i / 2)) as (b & Hb & ->); [zlia|]. simpl.
  destruct (pQ.tuple_ltb a b) eqn:Hlt.
  - rewrite (swap_insert l (i / 2) i a b) by (done || zlia). simpl.
    destruct (IH (<[Z.to_nat i := b]> (<[Z.to_nat (i / 2) := a]> l)) (i / 2))
      as (l' & -> & Hperm & H0 & Hord).
    { zlia. }
    { rewrite !length_insert. zlia. }
    exists l'. split_and!; [done|..].
    + rewrite Hperm. by apply swapped_Permutation.
    + rewrite H0. rewrite !list_lookup_insert_ne by zlia. done.
    + intros Hinv. apply Hord, up_inv_swap; try done; [zlia|].
      by apply tuple_ltb_true.
  - simpl.
    destruct (IH l (i / 2)) as (l' & -> & Hperm & H0 & Hord); [zlia|zlia|].
    exists l'. split_and!; try done.
    intros Hinv. apply Hord, ordered_from_up_inv.
    apply (up_inv_keep l i a b); try done; [zlia|].
    by apply tuple_ltb_false.
Qed.

(** *** percDown *)

Lemma minChild_spec l cs i :
  Z.of_nat (length l) = cs + 1 → 1 ≤ i → i * 2 ≤ cs →
  ∃ mc m, pQ.minChild (pQ.mkHeap l cs) i = Ok mc ∧ mc / 2 = i ∧ mc ≤ cs ∧
          l !! Z.to_nat mc = Some m ∧
          ∀ c y, c / 2 = i → l !! Z.to_nat c = Some y → prio_le m.1 y.1.
Proof.
  intros Hlen Hi Hc. unfold pQ.minChild. simpl.
  destruct (getitem_in_range l (i * 2)) as (a & Ha & Hga); [lia|].
  case_bool_decide as Hone.
  { exists (i * 2), a. split_and!; [done|zlia|lia|done|].
    intros c y Hci Hy. apply lookup_lt_Some in Hy as Hlt.
    assert (c = i * 2) as -> by zlia. simplify_eq. apply prio_le_refl. }
  destruct (getitem_in_range l (i * 2 + 1)) as (b & Hb & Hgb); [lia|].
  rewrite Hga, Hgb. simpl. destruct (pQ.tuple_ltb a b) eqn:Hlt.
  - exists (i * 2), a. split_and!; [done|zlia|lia|done|].
    intros c y Hci Hy.
    assert (c = i * 2 ∨ c = i * 2 + 1) as [-> | ->] by zlia; simplify_eq.
    + apply prio_le_refl.
    + by apply tuple_ltb_true.
  - exists (i * 2 + 1), b. split_and!; [done|zlia|lia|done|].
    intros c y Hci Hy.
    assert (c = i * 2 ∨ c = i * 2 + 1) as [-> | ->] by zlia; simplify_eq.
    + by apply tuple_ltb_false.
    + apply prio_le_refl.
Qed.

Lemma down_inv_done k l i :
  (∀ c, c / 2 = i → l !! Z.to_nat c = None) → down_inv k l i → ordered_from k l.
Proof.
  intros Hnone [H _] j a b Hj Hk Ha Hb.
  destruct (decide (j / 2 = i)) as [Hp|Hp]; [|by apply (H j)].
  rewrite (Hnone j Hp) in Hb. done.
Qed.

Lemma ordered_from_down_inv k l i : ordered_from k l → down_inv k l i.
Proof.
  intros H. split.
  - intros j a b Hj Hk _. by apply H.
  - intros c a b Hi Hk Hc Ha Hb.
    destruct (lookup_lt_is_Some_2 l (Z.to_nat i)) as [x Hx].
    { apply lookup_lt_Some in Hb. zlia. }
    apply prio_le_trans with x.1.
    + by apply (H i).
    + apply (H c); [zlia|zlia|by rewrite Hc|done].
Qed.

Lemma down_inv_keep k l i (a m : pQ.entry) :
  l !! Z.to_nat i = Some a → prio_le a.1 m.1 →
  (∀ c y, c / 2 = i → l !! Z.to_nat c = Some y → prio_le m.1 y.1) →
  down_inv k l i → ordered_from k l.
Proof.
  intros Ha Hle Hmin [H _] j x y Hj Hk Hx Hy.
  destruct (decide (j / 2 = i)) as [Hp|Hp]; [|by apply (H j)].
  rewrite Hp in Hx. simplify_eq.
  apply prio_le_trans with m.1; [done|]. by apply (Hmin j).
Qed.

Lemma down_inv_swap k l i mc (a m : pQ.entry) :
  1 ≤ i → mc / 2 = i →
  l !! Z.to_nat i = Some a → l !! Z.to_nat mc = Some m → prio_le m.1 a.1 →
  (∀ c y, c / 2 = i → l !! Z.to_nat c = Some y → prio_le m.1 y.1) →
  down_inv k l i →
  down_inv k (<[Z.to_nat mc := a]> (<[Z.to_nat i := m]> l)) mc.
Proof.
  intros Hi Hmc Ha Hm Hle Hmin [H1 H2].
  assert (∀ j, 0 ≤ j →
    <[Z.to_nat mc := a]> (<[Z.to_nat i := m]> l) !! Z.to_nat j =
      if decide (j = mc) then Some a
      else if decide (j = i) then Some m else l !! Z.to_nat j) as Hlk.
  { intros j Hj. apply lookup_swapped; try done; zlia. }
  split.
  - intros j x y Hj Hk Hne. rewrite !Hlk by zlia.
    rewrite (decide_False _ _ Hne).
    destruct (decide (j / 2 = i)) as [Hp|Hp].
    + intros [= <-]. destruct (decide (j = mc)) as [->|Hjm].
      { by intros [= <-]. }
      rewrite decide_False by zlia. intros Hy. by apply (Hmin j).
    + intros Hx. rewrite decide_False by zlia.
      destruct (decide (j = i)) as [->|Hji].
      * intros [= <-]. by apply (H2 mc x m).
      * intros Hy. by apply (H1 j).
  - intros c x y _ Hk Hc. rewrite !Hlk by zlia.
    rewrite Hmc. rewrite decide_False by zlia. rewrite decide_True by done.
    intros [= <-]. rewrite !decide_False by zlia. intros Hy.
    apply (H1 c); [zlia|zlia|zlia|by rewrite Hc|done].
Qed.

Lemma percDown_spec fuel l cs i :
  Z.of_nat (length l) = cs + 1 → 1 ≤ i → cs < Z.of_nat fuel + i →
  ∃ l', pQ.percDown fuel (pQ.mkHeap l cs) i = Ok (pQ.mkHeap l' cs) ∧
        l' ≡ₚ l ∧ l' !! 0%nat = l !! 0%nat ∧
        ∀ k, down_inv k l i → ordered_from k l'.
Proof.
  revert l i. induction fuel as [|fuel IH]; intros l i Hlen Hi Hfuel.
  { exists l. simpl. rewrite bool_decide_eq_false_2 by lia. split_and!; try done.
    intros k. apply down_inv_done. intros c Hc. apply lookup_ge_None. zlia. }
  cbn [pQ.percDown]. simpl. case_bool_decide as Hgo; cycle 1.
  { exists l. split_and!; try done.
    intros k. apply down_inv_done. intros c Hc. apply lookup_ge_None. zlia. }
  destruct (minChild_spec l cs i) as (mc & m & -> & Hmc & Hmccs & Hm & Hmin);
    [done..|]. simpl.
  destruct (getitem_in_range l i) as (a & Ha & ->); [lia|]. simpl.
  rewrite (getitem_lookup l mc m) by (done || zlia). simpl.
  destruct (pQ.tuple_gtb a m) eqn:Hgt.
  - rewrite (swap_insert l i mc m a) by (done || zlia). simpl.
    destruct (IH (<[Z.to_nat mc := a]> (<[Z.to_nat i := m]> l)) mc)
      as (l' & -> & Hperm & H0 & Hord).
    { by rewrite !length_insert. }
    { zlia. }
    { zlia. }
    exists l'. split_and!; [done|..].
    + rewrite Hperm. by apply swapped_Permutation.
    + rewrite H0. rewrite !list_lookup_insert_ne by zlia. done.
    + intros k Hinv. apply Hord, down_inv_swap; try done.
      by apply tuple_gtb_true.
  - simpl. destruct (IH l mc) as (l' & -> & Hperm & H0 & Hord); [done|zlia|zlia|].
    exists l'. split_and!; try done.
    intros k Hinv. apply Hord, ordered_from_down_inv.
    apply (down_inv_keep k l i a m); try done.
    by apply tuple_gtb_false.
Qed.

(** *** insert, delMin, buildHeap *)

Lemma heap_order_ordered_from h : heap_order h ↔ ordered_from 1 (pQ.heapList h).
Proof.
  split.
  - intros H j a b Hj _. by apply H.
  - intros H j a b Hj. apply H; [done|zlia].
Qed.

Lemma tail_Permutation {A} (l l' : list A) :
  l' ≡ₚ l → l' !! 0%nat = l !! 0%nat → tail l' ≡ₚ tail l.
Proof.
  intros Hperm H0. destruct l' as [|x t'], l as [|y t]; simplify_eq/=; try done.
  by apply Permutation_cons_inv in Hperm.
Qed.

Lemma shape_size h : shape h → 0 ≤ pQ.currentSize h.
Proof. intros [H0 Hlen]. apply lookup_lt_Some in H0. lia. Qed.

Lemma shape_init : shape pQ.init.
Proof. done. Qed.

Lemma heap_order_init : heap_order pQ.init.
Proof.
  intros i a b Hi _ Hb. apply lookup_lt_Some in Hb. simpl in Hb. lia.
Qed.

Lemma insert_spec h k :
  shape h →
  ∃ h', pQ.insert h k = Ok h' ∧ shape h' ∧
        pQ.currentSize h' = pQ.currentSize h + 1 ∧
        tail (pQ.heapList h') ≡ₚ tail (pQ.heapList h) ++ [k] ∧
        (heap_order h → heap_order h').
Proof.
  intros Hsh. pose proof (shape_size h Hsh) as Hcs. destruct Hsh as [H0 Hlen].
  destruct h as [l cs]. simpl in *. unfold pQ.insert. simpl.
  destruct (percUp_spec (Z.to_nat (cs + 1)) (l ++ [k]) (cs + 1) (cs + 1))
    as (l' & -> & Hperm & H0' & Hord).
  { lia. }
  { rewrite length_app. simpl. lia. }
  rewrite (lookup_app_l_Some _ _ _ _ H0) in H0'.
  exists (pQ.mkHeap l' (cs + 1)). split_and!; simpl; try done.
  - split; simpl; [done|]. rewrite Hperm, length_app. simpl. lia.
  - apply (tail_Permutation (l ++ [k])) in Hperm.
    + rewrite Hperm. by destruct l.
    + by rewrite H0', (lookup_app_l_Some _ _ _ _ H0).
  - intros Hho. apply heap_order_ordered_from. simpl. apply Hord. split.
    + intros j a b Hj Hne Ha Hb.
      assert (Z.to_nat j < length l)%nat as Hjl.
      { apply lookup_lt_Some in Hb. rewrite length_app in Hb. simpl in Hb. lia. }
      rewrite lookup_app_l in Ha by zlia. rewrite lookup_app_l in Hb by zlia.
      by apply (Hho j).
    + intros c a b Hi Hc _ Hb. apply lookup_lt_Some in Hb.
      rewrite length_app in Hb. simpl in Hb. zlia.
Qed.

Lemma insert_all_spec ks h :
  shape h →
  ∃ h', pQ.insert_all h ks = Ok h' ∧ shape h' ∧
        pQ.currentSize h' = pQ.currentSize h + Z.of_nat (length ks) ∧
        tail (pQ.heapList h') ≡ₚ tail (pQ.heapList h) ++ ks ∧
        (heap_order h → heap_order h').
Proof.
  revert h. induction ks as [|k ks IH]; intros h Hsh; simpl.
  { exists h. split_and!; try done; [lia|]. by rewrite app_nil_r. }
  destruct (insert_spec h k Hsh) as (h1 & -> & Hsh1 & Hcs1 & Hperm1 & Hord1).
  simpl. destruct (IH h1 Hsh1) as (h' & -> & Hsh' & Hcs' & Hperm' & Hord').
  exists h'. split_and!; try done; [lia| |tauto].
  by rewrite Hperm', Hperm1, <- app_assoc.
Qed.

(** the root of an ordered heap is not above any of its tuples *)
Lemma root_minimal h x :
  heap_order h → pQ.heapList h !! 1%nat = Some x →
  ∀ n y, (1 ≤ n)%nat → pQ.heapList h !! n = Some y → prio_le x.1 y.1.
Proof.
  intros Hho Hx n. induction (lt_wf n) as [n _ IH]. intros y Hn Hy.
  destruct (decide (n = 1%nat)) as [->|Hn1].
  { simplify_eq. apply prio_le_refl. }
  destruct (lookup_lt_is_Some_2 (pQ.heapList h) (Z.to_nat (Z.of_nat n / 2)))
    as [z Hz].
  { apply lookup_lt_Some in Hy. zlia. }
  apply prio_le_trans with z.1.
  - apply (IH (Z.to_nat (Z.of_nat n / 2))); [zlia|zlia|done].
  - apply (Hho (Z.of_nat n)); [lia|done|by rewrite Nat2Z.id].
Qed.

Local Arguments removelast : simpl never.

Lemma delMin_spec h :
  shape h → 1 ≤ pQ.currentSize h →
  ∃ x h', pQ.delMin h = Ok (x, h') ∧ pQ.heapList h !! 1%nat = Some x ∧
          shape h' ∧ pQ.currentSize h' = pQ.currentSize h - 1 ∧
          tail (pQ.heapList h) ≡ₚ x :: tail (pQ.heapList h') ∧
          (heap_order h → heap_order h').
Proof.
  intros [H0 Hlen] Hcs. destruct h as [l cs]. simpl in *.
  destruct l as [|s [|x r]]; simplify_eq/=; [lia|].
  unfold pQ.delMin. simpl.
  rewrite (getitem_lookup _ 1 x) by done. simpl.
  destruct (getitem_in_range (pQ.sentinel :: x :: r) cs) as (z & Hz & ->).
  { simpl. lia. }
  simpl. rewrite setitem_insert by (simpl; lia). simpl.
  change (Z.to_nat 1) with 1%nat. simpl.
  assert (∃ r', removelast (pQ.sentinel :: z :: r) = pQ.sentinel :: r' ∧
                Z.of_nat (length r') = cs - 1 ∧ x :: r ≡ₚ x :: r' ∧
                ∀ n, (1 ≤ n)%nat → is_Some (r' !! n) →
                     r' !! n = (x :: r) !! n)
    as (r' & Hpop & Hlen' & Hperm & Hsame).
  { destruct r as [|y r _] using rev_ind.
    - exists []. simpl in *. split_and!; try done; [lia|].
      intros n _ [? Hn]. by rewrite lookup_nil in Hn.
    - exists (z :: r). rewrite length_app in Hlen. simpl in Hlen.
      replace (Z.to_nat cs) with (S (S (length r))) in Hz by lia.
      simpl in Hz. rewrite lookup_app_r, Nat.sub_diag in Hz by done.
      simpl in Hz. simplify_eq. split_and!.
      + exact (removelast_last (pQ.sentinel :: z :: r) z).
      + simpl. lia.
      + f_equiv. by rewrite Permutation_app_comm.
      + intros [|n] Hn; [lia|]. simpl. intros [? Hr].
        by rewrite (lookup_app_l_Some _ _ _ _ Hr). }
  rewrite Hpop. simpl.
  destruct (percDown_spec (Z.to_nat cs) (pQ.sentinel :: r') (cs - 1) 1)
    as (l' & -> & Hperm' & H0' & Hord).
  { simpl. lia. }
  { lia. }
  { lia. }
  simpl. exists x, (pQ.mkHeap l' (cs - 1)). split_and!; simpl; try done.
  - split; simpl; [done|]. rewrite Hperm'. simpl. lia.
  - apply tail_Permutation in Hperm'; [|done]. simpl in Hperm'.
    by rewrite Hperm'.
  - intros Hho. apply heap_order_ordered_from. simpl. apply Hord. split.
    + intros j a b Hj _ Hne Ha Hb. apply (Hho j); [done|..]; simpl.
      * replace (Z.to_nat (j / 2)) with (S (pred (Z.to_nat (j / 2)))) in * by zlia.
        simpl in *. rewrite <- Hsame; [done|zlia|eauto].
      * replace (Z.to_nat j) with (S (pred (Z.to_nat j))) in * by zlia.
        simpl in *. rewrite <- Hsame; [done|zlia|eauto].
    + intros c a b ?. lia.
Qed.

Lemma isEmpty_size h : shape h → pQ.isEmpty h = bool_decide (pQ.currentSize h = 0).
Proof.
  intros [H0 Hlen]. unfold pQ.isEmpty. apply bool_decide_ext.
  destruct h as [[|s [|x r]] cs]; simplify_eq/=; split; intros; (done || lia).
Qed.

Lemma drain_spec fuel h :
  shape h → heap_order h → pQ.currentSize h = Z.of_nat fuel →
  ∃ out, pQ.drain fuel h = Ok out ∧ out ≡ₚ tail (pQ.heapList h) ∧
         StronglySorted (λ a b : pQ.entry, prio_le a.1 b.1) out.
Proof.
  revert h. induction fuel as [|fuel IH]; intros h Hsh Hho Hcs.
  { exists []. simpl. rewrite isEmpty_size, bool_decide_eq_true_2 by done.
    split_and!; [done| |constructor].
    destruct Hsh as [H0 Hlen]. destruct (pQ.heapList h) as [|s [|x r]]; simpl in *; [done..|lia]. }
  cbn [pQ.drain]. rewrite isEmpty_size, bool_decide_eq_false_2 by (done || lia).
  destruct (delMin_spec h) as (x & h' & -> & Hx & Hsh' & Hcs' & Hperm & Hord);
    [done|lia|]. simpl.
  destruct (IH h') as (out & -> & Hout & Hsorted); [done|tauto|lia|]. simpl.
  exists (x :: out). split_and!; [done|by rewrite Hperm, Hout|].
  constructor; [done|]. apply Forall_forall. intros y Hy.
  assert (y ∈ tail (pQ.heapList h)) as [n Hn]%list_elem_of_lookup.
  { rewrite Hperm, <- Hout. by right. }
  rewrite lookup_tail in Hn. apply (root_minimal h x Hho Hx (S n)); [lia|done].
Qed.

Lemma StronglySorted_fst (out : list pQ.entry) :
  StronglySorted (λ a b : pQ.entry, prio_le a.1 b.1) out →
  StronglySorted prio_le out.*1.
Proof.
  induction 1 as [|x out Hs IH Hall]; simpl; constructor; [done|].
  apply Forall_fmap. by eapply Forall_impl.
Qed.

(** C8: after any sequence of [insert] calls on a new heap, repeating
    [delMin] until the heap is empty succeeds, returns the inserted tuples,
    each once, and the priorities it returns never decrease. *)
Theorem delMin_priorities_nondecreasing (ks : list pQ.entry) :
  ∃ h out, pQ.insert_all pQ.init ks = Ok h ∧
           pQ.delMin_until_empty h = Ok out ∧
           out ≡ₚ ks ∧ Sorted prio_le out.*1.
Proof.
  destruct (insert_all_spec ks pQ.init shape_init)
    as (h & Hins & Hsh & Hcs & Hperm & Hord).
  destruct (drain_spec (Z.to_nat (pQ.currentSize h)) h)
    as (out & Hout & Hperm' & Hsorted); [done| |simpl in Hcs; lia|].
  { apply Hord, heap_order_init. }
  exists h, out. split_and!; [done..| |].
  - by rewrite Hperm', Hperm.
  - by apply StronglySorted_Sorted, StronglySorted_fst.
Qed.

(** *** The length layout

    [sized] holds of a new heap and every method keeps it, whether or not
    the sentinel is still at index 0. *)

Lemma sized_init : sized pQ.init.
Proof. done. Qed.

Lemma shape_sized h : shape h → sized h.
Proof. by intros [_ ?]. Qed.

Lemma insert_sized h k :
  sized h →
  ∃ h', pQ.insert h k = Ok h' ∧ sized h' ∧
        pQ.currentSize h' = pQ.currentSize h + 1.
Proof.
  destruct h as [l cs]. unfold sized, pQ.insert. simpl. intros Hlen.
  destruct (percUp_spec (Z.to_nat (cs + 1)) (l ++ [k]) (cs + 1) (cs + 1))
    as (l' & -> & Hperm & _).
  { lia. }
  { rewrite length_app. simpl. lia. }
  eexists. split_and!; [done| |done]. simpl.
  rewrite Hperm, length_app. simpl. lia.
Qed.

Lemma delMin_sized h :
  sized h → 1 ≤ pQ.currentSize h →
  ∃ x h', pQ.delMin h = Ok (x, h') ∧ pQ.heapList h !! 1%nat = Some x ∧
          sized h' ∧ pQ.currentSize h' = pQ.currentSize h - 1.
Proof.
  destruct h as [l cs]. unfold sized, pQ.delMin. simpl. intros Hlen Hcs.
  destruct (getitem_in_range l 1) as (x & Hx & ->); [lia|].
  destruct (getitem_in_range l cs) as (z & Hz & ->); [lia|].
  simpl. rewrite setitem_insert by lia. simpl.
  assert (Py.pop (<[Z.to_nat 1:=z]> l) = Ok (removelast (<[Z.to_nat 1:=z]> l)))
    as ->.
  { destruct l as [|? [|? ?]]; simpl in *; (done || lia). }
  simpl.
  destruct (percDown_spec (Z.to_nat cs) (removelast (<[Z.to_nat 1:=z]> l))
              (cs - 1) 1) as (l' & -> & Hperm & _).
  { rewrite removelast_firstn_len, length_take, length_insert. lia. }
  { lia. }
  { lia. }
  simpl. exists x, (pQ.mkHeap l' (cs - 1)). split_and!; simpl; try done.
  rewrite Hperm, removelast_firstn_len, length_take, length_insert. lia.
Qed.

Lemma getitem_past_end {A} (l : list A) i :
  Z.of_nat (length l) ≤ i → Py.getitem l i = Raise IndexError.
Proof.
  intros Hi. unfold Py.getitem.
  rewrite (bool_decide_eq_false_2 (i < 0)) by lia.
  by rewrite bool_decide_eq_false_2 by lia.
Qed.

Lemma delMin_sized_empty h :
  sized h → pQ.currentSize h < 1 → pQ.delMin h = Raise IndexError.
Proof.
  unfold sized, pQ.delMin. intros Hlen Hcs.
  by rewrite (getitem_past_end _ 1) by lia.
Qed.

(** C9: a heap that [isEmpty] calls empty makes [delMin] raise
    [IndexError] and return nothing.  On a heap whose [currentSize] is one
    less than the length of its backing list, the layout every method
    keeps, [delMin] returns a tuple and keeps that layout when
    [currentSize] is at least 1, and raises [IndexError] when it is not:
    the error is reached on the heaps that hold no tuple and on no other. *)
Theorem delMin_empty_raises :
  (∀ h, pQ.isEmpty h = true → pQ.delMin h = Raise IndexError) ∧
  (∀ h, sized h → 1 ≤ pQ.currentSize h →
        ∃ x h', pQ.delMin h = Ok (x, h') ∧ sized h' ∧
                pQ.currentSize h' = pQ.currentSize h - 1) ∧
  (∀ h, sized h → pQ.currentSize h < 1 → pQ.delMin h = Raise IndexError).
Proof.
  split_and!.
  - intros h Hemp. apply bool_decide_eq_true in Hemp. unfold pQ.delMin.
    by rewrite Hemp.
  - intros h Hsz Hcs.
    destruct (delMin_sized h Hsz Hcs) as (x & h' & Hd & _ & Hsz' & Hcs').
    by exists x, h'.
  - apply delMin_sized_empty.
Qed.

Lemma delMin_empty_raises_witness :
  pQ.delMin pQ.init = Raise IndexError ∧
  (∃ x h', pQ.delMin (pQ.mkHeap [pQ.sentinel; (pQ.Fin 2, "a"); (pQ.Fin 3, "g");
                                 (pQ.Fin 4, "r")] 3) = Ok (x, h') ∧
           sized h' ∧ pQ.currentSize h' = 3 - 1) ∧
  pQ.delMin (pQ.mkHeap [(pQ.Fin 5, "x")] 0) = Raise IndexError.
Proof.
  split_and!.
  - apply (proj1 delMin_empty_raises). reflexivity.
  - apply (proj1 (proj2 delMin_empty_raises)
             (pQ.mkHeap [pQ.sentinel; (pQ.Fin 2, "a"); (pQ.Fin 3, "g");
                         (pQ.Fin 4, "r")] 3)); [reflexivity|simpl; lia].
  - apply (proj2 (proj2 delMin_empty_raises) (pQ.mkHeap [(pQ.Fin 5, "x")] 0));
      [reflexivity|simpl; lia].
Defined.

(** *** buildHeap *)

Lemma buildHeap_loop_spec n l cs :
  Z.of_nat (length l) = cs + 1 → Z.of_nat n ≤ cs →
  ∃ l', pQ.buildHeap_loop n (pQ.mkHeap l cs) = Ok (pQ.mkHeap l' cs) ∧
        l' ≡ₚ l ∧ l' !! 0%nat = l !! 0%nat ∧
        (ordered_from (Z.of_nat n + 1) l → ordered_from 1 l').
Proof.
  revert l. induction n as [|n IH]; intros l Hlen Hn.
  { exists l. by split_and!. }
  cbn [pQ.buildHeap_loop]. simpl.
  destruct (percDown_spec (Z.to_nat cs) l cs (Z.of_nat (S n)))
    as (l1 & -> & Hperm1 & H01 & Hord1); [done|lia|lia|]. simpl.
  destruct (IH l1) as (l' & -> & Hperm & H0 & Hord); [by rewrite Hperm1|lia|].
  exists l'. split_and!; [done|by rewrite Hperm|by rewrite H0|].
  intros Hfrom. apply Hord.
  replace (Z.of_nat n + 1) with (Z.of_nat (S n)) by lia.
  apply Hord1. split.
  - intros j a b Hj Hk Hne. apply Hfrom; [done|lia].
  - intros c a b Hi Hk. zlia.
Qed.

Lemma buildHeap_spec alist :
  ∃ h, pQ.buildHeap alist = Ok h ∧ shape h ∧ heap_order h ∧
       pQ.currentSize h = Z.of_nat (length alist) ∧
       tail (pQ.heapList h) ≡ₚ alist.
Proof.
  unfold pQ.buildHeap.
  destruct (buildHeap_loop_spec (length alist / 2) (pQ.sentinel :: alist)
              (Z.of_nat (length alist))) as (l' & -> & Hperm & H0 & Hord).
  { simpl. lia. }
  { pose proof (Nat.Div0.div_le_upper_bound (length alist) 2 (length alist)).
    assert (length alist / 2 ≤ length alist)%nat; [|lia].
    apply Nat.Div0.div_le_upper_bound. lia. }
  exists (pQ.mkHeap l' (Z.of_nat (length alist))). split_and!; simpl; try done.
  - split; simpl; [done|]. rewrite Hperm. simpl. lia.
  - apply heap_order_ordered_from, Hord.
    intros j a b Hj Hk Ha Hb. apply lookup_lt_Some in Hb. simpl in Hb.
    rewrite Nat2Z.inj_div in Hk. zlia.
  - by apply tail_Permutation in Hperm.
Qed.

Lemma buildHeap_sized alist : ∃ h, pQ.buildHeap alist = Ok h ∧ sized h.
Proof.
  destruct (buildHeap_spec alist) as (h & Hb & Hsh & _).
  exists h. split; [done|]. by apply shape_sized.
Qed.

(** *** editHeap *)

(** C2 (the code departs from it): [insert], [delMin] and [buildHeap] keep
    heap order ([insert_spec], [delMin_spec], [buildHeap_spec]), but
    [editHeap] does not.  Seven inserts give an ordered heap; on it
    [editHeap('b', (0, 'b'))] deletes index 2 from the middle of the list,
    which moves every later tuple one place down, and leaves (10, 'c') at
    index 2 above (4, 'e') at index 4.  Emptying that heap with [delMin]
    then returns (10, 'c') before (4, 'e'). *)
Theorem editHeap_breaks_heap_order :
  let h0 := pQ.mkHeap [pQ.sentinel; (pQ.Fin 1, "a"); (pQ.Fin 2, "b");
                       (pQ.Fin 10, "c"); (pQ.Fin 3, "d"); (pQ.Fin 4, "e");
                       (pQ.Fin 11, "f"); (pQ.Fin 12, "g")] 7 in
  let h1 := pQ.mkHeap [pQ.sentinel; (pQ.Fin 0, "b"); (pQ.Fin 10, "c");
                       (pQ.Fin 1, "a"); (pQ.Fin 4, "e"); (pQ.Fin 11, "f");
                       (pQ.Fin 12, "g"); (pQ.Fin 3, "d")] 7 in
  pQ.insert_all pQ.init [(pQ.Fin 1, "a"); (pQ.Fin 2, "b"); (pQ.Fin 10, "c");
                         (pQ.Fin 3, "d"); (pQ.Fin 4, "e"); (pQ.Fin 11, "f");
                         (pQ.Fin 12, "g")] = Ok h0 ∧
  heap_order h0 ∧
  pQ.editHeap h0 "b" (pQ.Fin 0, "b") = Ok h1 ∧
  ¬ heap_order h1 ∧
  pQ.delMin_until_empty h1 =
    Ok [(pQ.Fin 0, "b"); (pQ.Fin 1, "a"); (pQ.Fin 3, "d"); (pQ.Fin 10, "c");
        (pQ.Fin 4, "e"); (pQ.Fin 11, "f"); (pQ.Fin 12, "g")].
Proof.
  intros h0 h1.
  assert (pQ.insert_all pQ.init [(pQ.Fin 1, "a"); (pQ.Fin 2, "b");
            (pQ.Fin 10, "c"); (pQ.Fin 3, "d"); (pQ.Fin 4, "e");
            (pQ.Fin 11, "f"); (pQ.Fin 12, "g")] = Ok h0) as Hins.
  { vm_compute. reflexivity. }
  split_and!; [done| |by vm_compute| |by vm_compute].
  - destruct (insert_all_spec [(pQ.Fin 1, "a"); (pQ.Fin 2, "b");
                (pQ.Fin 10, "c"); (pQ.Fin 3, "d"); (pQ.Fin 4, "e");
                (pQ.Fin 11, "f"); (pQ.Fin 12, "g")] pQ.init shape_init)
      as (h & Hh & _ & _ & _ & Hord).
    rewrite Hins in Hh. injection Hh as <-. apply Hord, heap_order_init.
  - intros Hho.
    specialize (Hho 4 (pQ.Fin 10, "c") (pQ.Fin 4, "e")).
    discriminate Hho; [lia|reflexivity..].
Qed.

End heap.

(** ** check_cycles *)

Section cycles.
Variable g : graph.Graph.
Hypothesis Hwf : wf g.

Lemma edge_getConns v ns n :
  graph.getConns g v = Ok (Some ns) → (edge g v n ↔ n ∈ ns).
Proof.
  intros Hc. split; [|by exists ns].
  intros (ns' & Hc' & Hn). congruence.
Qed.

Lemma closed_rtc (S : gset string) b y :
  (∀ b n, b ∈ S → edge g b n → n ∈ S) → b ∈ S → rtc (edge g) b y → y ∈ S.
Proof. intros Hcl Hb Hr. induction Hr; eauto. Qed.

Lemma tc_edge_inv x z : tc (edge g) x z → ∃ y, edge g x y ∧ rtc (edge g) y z.
Proof.
  intros H. destruct H as [x z H|x y z H Ht].
  - exists z. split; [done|reflexivity].
  - exists y. split; [done|]. by apply tc_rtc.
Qed.

Lemma marks_inv_empty : marks_inv g (graph.mkMarks ∅ ∅).
Proof. split_and!; simpl; intros; set_solver. Qed.

Lemma unvisited_mono m m' :
  graph.visited m ⊆ graph.visited m' → unvisited g m' ≤ unvisited g m.
Proof. intros H. apply subseteq_size. set_solver. Qed.

Lemma unvisited_enter v m :
  v ∈ graph.vertexList g → v ∉ graph.visited m →
  unvisited g (graph.mkMarks (graph.visited m ∪ {[v]}) (graph.path m ∪ {[v]}))
  < unvisited g m.
Proof.
  intros Hv Hnv. apply subset_size. simpl. apply strict_spec_alt. split.
  - set_solver.
  - intros Heq. assert (v ∈ (list_to_set (graph.vertexList g) : gset string) ∖ graph.visited m) as Hin.
    { apply elem_of_difference. split; [|done]. by apply elem_of_list_to_set. }
    rewrite <- Heq in Hin. set_solver.
Qed.

Lemma marks_inv_enter v m :
  v ∈ graph.vertexList g → v ∉ graph.visited m → marks_inv g m →
  marks_inv g (graph.mkMarks (graph.visited m ∪ {[v]}) (graph.path m ∪ {[v]})).
Proof.
  intros Hv Hnv (Hsub & HV & Hcl & Hac). split_and!; simpl.
  - set_solver.
  - intros x [?| ->%elem_of_singleton]%elem_of_union; eauto.
  - intros b n Hb Hbp He.
    assert (b ∈ graph.visited m ∧ b ∉ graph.path m) as [Hb1 Hb2] by set_solver.
    destruct (Hcl b n Hb1 Hb2 He) as [Hn1 Hn2]. set_solver.
  - intros b Hb Hbp. apply Hac; set_solver.
Qed.

Lemma marks_inv_leave v m P :
  marks_inv g m → graph.path m = P ∪ {[v]} → v ∉ P → v ∈ graph.visited m →
  (∀ n, edge g v n → n ∈ graph.visited m ∧ n ∉ graph.path m) →
  marks_inv g (graph.mkMarks (graph.visited m) (graph.path m ∖ {[v]})).
Proof.
  intros (Hsub & HV & Hcl & Hac) HP HvP Hv Hnb. split_and!; simpl.
  - set_solver.
  - done.
  - intros b n Hb Hbp He. destruct (decide (b = v)) as [->|Hne].
    + destruct (Hnb n He). set_solver.
    + assert (b ∉ graph.path m) as Hbp' by set_solver.
      destruct (Hcl b n Hb Hbp' He). set_solver.
  - intros b Hb Hbp. destruct (decide (b = v)) as [->|Hne].
    + intros (n & He & Hr)%tc_edge_inv.
      destruct (Hnb n He) as [Hn1 Hn2].
      assert (v ∈ graph.visited m ∖ graph.path m) as Hin; [|set_solver].
      apply (closed_rtc _ n); [|set_solver|done].
      intros b' n' [Hb1 Hb2]%elem_of_difference He'.
      apply elem_of_difference. by apply (Hcl b' n').
    + apply Hac; set_solver.
Qed.

Lemma visit_loop_spec rec F u nodes m :
  (∀ n m, n ∈ graph.vertexList g → marks_inv g m → n ∉ graph.path m →
          (∀ x, x ∈ graph.path m → rtc (edge g) x n) → unvisited g m < F →
          ∃ b m', rec n m = Ok (b, m') ∧ visit_post g n m b m') →
  (∀ n, n ∈ nodes → edge g u n) →
  marks_inv g m → (∀ x, x ∈ graph.path m → rtc (edge g) x u) →
  unvisited g m < F →
  ∃ b m', graph.visit_loop rec nodes m = Ok (b, m') ∧
          if b then has_cycle g
          else marks_inv g m' ∧ graph.path m' = graph.path m ∧
               graph.visited m ⊆ graph.visited m' ∧
               ∀ n, n ∈ nodes → n ∈ graph.visited m' ∧ n ∉ graph.path m'.
Proof.
  intros Hrec. revert m.
  induction nodes as [|n nodes IH]; intros m Hedges Hinv Hgray Hfuel; simpl.
  { exists false, m. split_and!; try done. by intros n ?%elem_of_nil. }
  assert (edge g u n) as Hun by (apply Hedges; by left).
  case_bool_decide as Hnp.
  { exists true, m. split; [done|]. exists n.
    eapply tc_rtc_l; [by apply Hgray|]. by apply tc_once. }
  destruct (Hrec n m) as (b & m1 & -> & Hpost); try done.
  { by eapply wf_closed. }
  { intros x Hx. eapply rtc_r; [by apply Hgray|done]. }
  simpl. destruct b; [by exists true, m1|].
  destruct Hpost as (Hinv1 & Hpath1 & Hvis1 & Hn1).
  destruct (IH m1) as (b & m2 & -> & Hpost2); try done.
  { intros n' Hn'. apply Hedges. by right. }
  { by rewrite Hpath1. }
  { pose proof (unvisited_mono m m1 Hvis1). lia. }
  exists b, m2. split; [done|]. destruct b; [done|].
  destruct Hpost2 as (Hinv2 & Hpath2 & Hvis2 & Hall).
  split_and!; [done|congruence|set_solver|].
  intros n' [->|Hn']%elem_of_cons; [|by apply Hall].
  split; [set_solver|]. congruence.
Qed.

Lemma visit_spec fuel v m :
  v ∈ graph.vertexList g → marks_inv g m → v ∉ graph.path m →
  (∀ x, x ∈ graph.path m → rtc (edge g) x v) → unvisited g m < fuel →
  ∃ b m', graph.visit fuel g v m = Ok (b, m') ∧ visit_post g v m b m'.
Proof.
  revert v m. induction fuel as [|fuel IH]; intros v m Hv Hinv Hvp Hgray Hfuel; [lia|].
  simpl. case_bool_decide as Hvis.
  { exists false, m. by split_and!. }
  destruct (getConns_wf g v) as [ns Hns]; [intros x; by apply wf_keys|done|].
  rewrite Hns. simpl.
  destruct (visit_loop_spec (graph.visit fuel g) fuel v ns
              (graph.mkMarks (graph.visited m ∪ {[v]}) (graph.path m ∪ {[v]})))
    as (b & m2 & -> & Hpost).
  { apply IH. }
  { intros n Hn. by apply (edge_getConns v ns). }
  { by apply marks_inv_enter. }
  { simpl. intros x [?| ->%elem_of_singleton]%elem_of_union; [by apply Hgray|reflexivity]. }
  { pose proof (unvisited_enter v m Hv Hvis). lia. }
  simpl. destruct b; [by exists true, m2|].
  destruct Hpost as (Hinv2 & Hpath2 & Hvis2 & Hall). simpl in *.
  rewrite bool_decide_eq_true_2 by set_solver.
  eexists false, _. split; [done|]. split_and!; simpl.
  - apply (marks_inv_leave v m2 (graph.path m)); try done; [set_solver|].
    intros n Hn. apply Hall. by apply (edge_getConns v ns).
  - rewrite Hpath2. set_solver.
  - set_solver.
  - set_solver.
Qed.

Lemma check_cycles_loop_spec fuel verts m :
  (∀ v, v ∈ verts → v ∈ graph.vertexList g) →
  marks_inv g m → graph.path m = ∅ → unvisited g m < fuel →
  ∃ b, graph.check_cycles_loop fuel g verts m = Ok b ∧
       if b then has_cycle g
       else ∃ m', marks_inv g m' ∧ graph.path m' = ∅ ∧
                  graph.visited m ⊆ graph.visited m' ∧
                  ∀ v, v ∈ verts → v ∈ graph.visited m'.
Proof.
  revert m. induction verts as [|v verts IH]; intros m Hverts Hinv Hpath Hfuel; simpl.
  { exists false. split; [done|]. exists m. split_and!; try done.
    by intros v ?%elem_of_nil. }
  destruct (visit_spec fuel v m) as (b & m1 & -> & Hpost); try done.
  { apply Hverts. by left. }
  { rewrite Hpath. set_solver. }
  { intros x. rewrite Hpath. set_solver. }
  simpl. destruct b; [by exists true|].
  destruct Hpost as (Hinv1 & Hpath1 & Hvis1 & Hv1).
  destruct (IH m1) as (b & -> & Hpost2); try done.
  { intros v' Hv'. apply Hverts. by right. }
  { congruence. }
  { pose proof (unvisited_mono m m1 Hvis1). lia. }
  exists b. split; [done|]. destruct b; [done|].
  destruct Hpost2 as (m' & Hinv' & Hpath' & Hvis' & Hall).
  exists m'. split_and!; [done|done|set_solver|].
  intros v' [->|Hv']%elem_of_cons; [set_solver|by apply Hall].
Qed.

Lemma check_cycles_spec :
  ∃ b, graph.check_cycles g = Ok b ∧ (b = true ↔ has_cycle g).
Proof.
  destruct (check_cycles_loop_spec (S (length (graph.vertexList g)))
              (graph.vertexList g) (graph.mkMarks ∅ ∅)) as (b & Hb & Hpost).
  { done. }
  { apply marks_inv_empty. }
  { done. }
  { unfold unvisited. simpl. rewrite difference_empty_L.
    rewrite size_list_to_set by apply Hwf. lia. }
  exists b. split; [done|]. destruct b; [done|].
  destruct Hpost as (m' & (_ & _ & _ & Hac) & Hpath & _ & Hall).
  split; [done|]. intros [v Hv]. exfalso.
  apply (Hac v); [|rewrite Hpath; set_solver|done].
  apply Hall. apply tc_edge_inv in Hv as (y & He & _). by eapply edge_source.
Qed.

End cycles.

(** C4: on a well-formed graph [check_cycles] returns, and it returns [True]
    exactly when the graph has a directed cycle; it returns [True] on the
    graph with the edges A->B, B->A and [False] on the graph with the
    edges A->B, A->C. *)
Theorem check_cycles_iff_cycle :
  (∀ g, wf g → ∃ b, graph.check_cycles g = Ok b ∧ (b = true ↔ has_cycle g)) ∧
  (g ← build [("A", "B"); ("B", "A")]; graph.check_cycles g) = Ok true ∧
  (g ← build [("A", "B"); ("A", "C")]; graph.check_cycles g) = Ok false.
Proof.
  split; [|by vm_compute]. intros g Hwf. by apply check_cycles_spec.
Qed.

Lemma check_cycles_iff_cycle_witness :
  ∃ b, graph.check_cycles doctest_graph = Ok b ∧
       (b = true ↔ has_cycle doctest_graph).
Proof.
  apply (proj1 check_cycles_iff_cycle).
  apply (build_Ok_wf [("A", "B"); ("A", "C"); ("B", "C"); ("C", "D")]).
  vm_compute. reflexivity.
Defined.

(** ** The fuel of the loops is enough *)

Section fuel.
Local Open Scope Z_scope.

Ltac zlia := Z.div_mod_to_equations; lia.

Lemma bind_not_OutOfFuel {A B} (m : result A) (f : A → result B) :
  m ≠ OutOfFuel → (∀ a, m = Ok a → f a ≠ OutOfFuel) → m ≫= f ≠ OutOfFuel.
Proof. destruct m; simpl; [eauto|done..]. Qed.

Lemma getitem_not_OutOfFuel {A} (l : list A) i : Py.getitem l i ≠ OutOfFuel.
Proof. unfold Py.getitem. repeat case_match; done. Qed.

Lemma setitem_not_OutOfFuel {A} (l : list A) i x : Py.setitem l i x ≠ OutOfFuel.
Proof. unfold Py.setitem. repeat case_match; done. Qed.

Lemma swap_not_OutOfFuel {A} (l : list A) i j : Py.swap l i j ≠ OutOfFuel.
Proof.
  unfold Py.swap.
  repeat (apply bind_not_OutOfFuel; [apply getitem_not_OutOfFuel|intros ? _]).
  apply bind_not_OutOfFuel; [apply setitem_not_OutOfFuel|intros ? _].
  apply setitem_not_OutOfFuel.
Qed.

Lemma percUp_not_OutOfFuel fuel h i :
  (Z.to_nat i ≤ fuel)%nat → pQ.percUp fuel h i ≠ OutOfFuel.
Proof.
  revert h i. induction fuel as [|fuel IH]; intros h i Hfuel.
  { simpl. rewrite bool_decide_eq_false_2 by zlia. done. }
  cbn [pQ.percUp]. case_bool_decide; [|done].
  repeat (apply bind_not_OutOfFuel; [apply getitem_not_OutOfFuel|intros ? _]).
  apply bind_not_OutOfFuel.
  { case_match; [apply swap_not_OutOfFuel|done]. }
  intros l _. apply IH. zlia.
Qed.

Lemma insert_not_OutOfFuel h k : pQ.insert h k ≠ OutOfFuel.
Proof. unfold pQ.insert. by apply percUp_not_OutOfFuel. Qed.

Lemma minChild_cases h i mc :
  pQ.minChild h i = Ok mc → mc = i * 2 ∨ mc = i * 2 + 1.
Proof.
  unfold pQ.minChild. case_bool_decide; [naive_solver|].
  destruct (Py.getitem _ (i * 2)); simpl; [|done..].
  destruct (Py.getitem _ (i * 2 + 1)); simpl; [|done..].
  case_match; naive_solver.
Qed.

Lemma minChild_not_OutOfFuel h i : pQ.minChild h i ≠ OutOfFuel.
Proof.
  unfold pQ.minChild. case_bool_decide; [done|].
  repeat (apply bind_not_OutOfFuel; [apply getitem_not_OutOfFuel|intros ? _]).
  by case_match.
Qed.

Lemma percDown_not_OutOfFuel fuel h i :
  1 ≤ i → pQ.currentSize h < Z.of_nat fuel + i →
  pQ.percDown fuel h i ≠ OutOfFuel.
Proof.
  revert h i. induction fuel as [|fuel IH]; intros h i Hi Hfuel.
  { simpl. rewrite bool_decide_eq_false_2 by lia. done. }
  cbn [pQ.percDown]. case_bool_decide; [|done].
  apply bind_not_OutOfFuel; [apply minChild_not_OutOfFuel|].
  intros mc Hmc%minChild_cases.
  repeat (apply bind_not_OutOfFuel; [apply getitem_not_OutOfFuel|intros ? _]).
  apply bind_not_OutOfFuel.
  { case_match; [apply swap_not_OutOfFuel|done]. }
  intros l _. apply IH; simpl; lia.
Qed.

Lemma delMin_not_OutOfFuel h : pQ.delMin h ≠ OutOfFuel.
Proof.
  unfold pQ.delMin.
  repeat (apply bind_not_OutOfFuel; [apply getitem_not_OutOfFuel|intros ? _]).
  apply bind_not_OutOfFuel; [apply setitem_not_OutOfFuel|intros ? _].
  apply bind_not_OutOfFuel; [unfold Py.pop; by case_match|intros ? _].
  apply bind_not_OutOfFuel; [|done].
  apply percDown_not_OutOfFuel; simpl; lia.
Qed.

Lemma editHeap_not_OutOfFuel h name update :
  pQ.editHeap h name update ≠ OutOfFuel.
Proof. unfold pQ.editHeap. case_match; apply insert_not_OutOfFuel. Qed.

End fuel.

Lemma find_shortest_path_loop_not_OutOfFuel rec path nodes shortest :
  (∀ n, n ∈ nodes → n ∉ path → rec n ≠ OutOfFuel) →
  graph.find_shortest_path_loop rec path nodes shortest ≠ OutOfFuel.
Proof.
  revert shortest. induction nodes as [|node nodes IH]; intros shortest Hrec; [done|].
  simpl. assert (∀ n, n ∈ nodes → n ∉ path → rec n ≠ OutOfFuel) as Hrec'.
  { intros n Hn. apply Hrec. by right. }
  case_bool_decide; [by apply IH|].
  apply bind_not_OutOfFuel; [apply Hrec; [by left|done]|]. intros newpath _.
  apply bind_not_OutOfFuel; [|intros; by apply IH].
  destruct (graph.truthy newpath); [|done].
  destruct (negb (graph.truthy shortest)); [done|].
  destruct newpath, shortest; simpl; try done. by case_bool_decide.
Qed.

Lemma find_shortest_path_rec_not_OutOfFuel fuel g s e p :
  NoDup p → s ∉ p → (∀ x, x ∈ p → x ∈ graph.vertexList g) →
  length (graph.vertexList g) < fuel + length p →
  graph.find_shortest_path_rec fuel g s e p ≠ OutOfFuel.
Proof.
  revert s p. induction fuel as [|fuel IH]; intros s p Hnd Hs Hsub Hfuel.
  { assert (length p ≤ length (graph.vertexList g)); [|lia].
    by apply submseteq_length, NoDup_submseteq. }
  simpl. case_bool_decide; [done|].
  destruct (negb (graph.hasVert g s)) eqn:Hv; [done|]. simpl.
  destruct (negb (graph.hasVert g e)); [done|].
  apply negb_false_iff, bool_decide_eq_true in Hv.
  apply bind_not_OutOfFuel.
  { unfold graph.getConns. repeat case_match; done. }
  intros conns _. apply bind_not_OutOfFuel; [by destruct conns|].
  intros nodes _. apply find_shortest_path_loop_not_OutOfFuel.
  intros n _ Hn. apply IH; [by apply NoDup_snoc|done| |].
  - intros x [?| ->%list_elem_of_singleton]%elem_of_app; eauto.
  - rewrite length_app. simpl. lia.
Qed.

(** on any graph, well formed or not, [find_shortest_path] returns or
    raises *)
Lemma find_shortest_path_not_OutOfFuel g s e :
  graph.find_shortest_path g s e ≠ OutOfFuel.
Proof.
  apply find_shortest_path_rec_not_OutOfFuel.
  - apply NoDup_nil_2.
  - apply not_elem_of_nil.
  - by intros x ?%elem_of_nil.
  - simpl. lia.
Qed.

(** ** Dijkstra on graphs without a vertex named ['0'] *)

Lemma find_name_Some l name i0 i :
  pQ.find_name l name i0 = Some i →
  ∃ j t, i = i0 + j ∧ l !! j = Some t ∧ t.2 = name.
Proof.
  revert i0. induction l as [|t l IH]; intros i0 H; [done|]. simpl in H.
  case_bool_decide as Ht.
  - simplify_eq. exists 0, t. split_and!; [lia|done..].
  - destruct (IH _ H) as (j & t' & -> & Hj & Ht'). exists (S j), t'.
    split_and!; [lia|done..].
Qed.

Lemma find_name_None l name i0 :
  pQ.find_name l name i0 = None → name ∉ l.*2.
Proof.
  revert i0. induction l as [|t l IH]; intros i0 H; [by apply not_elem_of_nil|].
  simpl in *. case_bool_decide as Ht; [done|].
  apply not_elem_of_cons. split; [done|]. by eapply IH.
Qed.

Lemma editHeap_sized h name update :
  sized h →
  ∃ h', pQ.editHeap h name update = Ok h' ∧ sized h'.
Proof.
  intros Hsz. unfold pQ.editHeap.
  destruct (pQ.find_name (pQ.heapList h) name 0) as [i|] eqn:Hfind.
  - apply find_name_Some in Hfind as (j & t & -> & Hj & _).
    apply lookup_lt_Some in Hj.
    destruct (insert_sized (pQ.mkHeap (delete (0 + j) (pQ.heapList h))
                              (pQ.currentSize h - 1)) update)
      as (h' & -> & Hsz' & _); [|by exists h'].
    unfold sized in *. simpl. rewrite length_delete; [lia|].
    by apply lookup_lt_is_Some_2.
  - destruct (insert_sized h update Hsz) as (h' & -> & Hsz' & _). by exists h'.
Qed.

(** [editHeap] on a key other than the sentinel's: the new tuple is queued,
    one tuple of that key is taken out, the rest stays *)
Lemma editHeap_spec h name update :
  shape h → name ≠ "0" →
  ∃ h' Q0, pQ.editHeap h name update = Ok h' ∧ shape h' ∧
           queue h' ≡ₚ update :: Q0 ∧ Q0 ⊆+ queue h ∧
           (NoDup (queue h).*2 → name ∉ Q0.*2) ∧
           (∀ k, k ≠ name → k ∈ (queue h).*2 → k ∈ Q0.*2).
Proof.
  intros Hsh Hname. unfold pQ.editHeap.
  destruct (pQ.find_name (pQ.heapList h) name 0) as [i|] eqn:Hfind.
  - apply find_name_Some in Hfind as (j & t & -> & Hj & Ht). simpl.
    destruct h as [l cs]. destruct Hsh as [H0 Hlen]. simpl in *.
    destruct l as [|s Q]; [done|]. simpl in H0. simplify_eq.
    destruct j as [|j]; [by simplify_eq/=|]. simpl in Hj. simpl.
    destruct (insert_spec (pQ.mkHeap (pQ.sentinel :: delete j Q) (cs - 1)) update)
      as (h' & -> & Hsh' & _ & Hperm & _).
    { split; simpl; [done|]. rewrite length_delete by eauto. simpl in Hlen.
      apply lookup_lt_Some in Hj. lia. }
    exists h', (delete j Q). simpl in Hperm. unfold queue. simpl.
    split_and!; try done.
    + by rewrite Hperm, Permutation_app_comm.
    + apply sublist_submseteq, sublist_delete.
    + intros Hnd. rewrite (delete_Permutation Q j t Hj) in Hnd.
      simpl in Hnd. by apply NoDup_cons in Hnd as [? _].
    + intros k Hk (e & -> & He)%list_elem_of_fmap.
      rewrite (delete_Permutation Q j t Hj) in He.
      apply elem_of_cons in He as [->|He]; [done|].
      apply list_elem_of_fmap. eauto.
  - apply find_name_None in Hfind.
    destruct (insert_spec h update Hsh) as (h' & -> & Hsh' & _ & Hperm & _).
    exists h', (queue h). unfold queue in *. split_and!; try done.
    + by rewrite Hperm, Permutation_app_comm.
    + intros _ Hin. apply Hfind.
      destruct h as [[|s Q] cs]; simpl in *; [done|]. by right.
Qed.

Lemma sum_list_with_ext (f f' : string → nat) l :
  (∀ v, v ∈ l → f' v = f v) → sum_list_with f' l = sum_list_with f l.
Proof.
  induction l as [|x l IH]; intros H; simpl; [done|].
  rewrite (H x) by (by left). rewrite IH; [done|]. intros v Hv. apply H. by right.
Qed.

(** changing a summand at one place of a list without repetition *)
Lemma sum_list_with_update (f f' : string → nat) l w :
  NoDup l → w ∈ l → (∀ v, v ≠ w → f' v = f v) →
  sum_list_with f' l + f w = sum_list_with f l + f' w.
Proof.
  induction l as [|x l IH]; intros Hnd Hw Hext; [by apply elem_of_nil in Hw|].
  apply NoDup_cons in Hnd as [Hx Hnd]. simpl.
  destruct (decide (x = w)) as [->|Hne].
  - rewrite (sum_list_with_ext f f' l); [lia|].
    intros v Hv. apply Hext. by intros ->.
  - apply elem_of_cons in Hw as [->|Hw]; [done|].
    rewrite (Hext x Hne). specialize (IH Hnd Hw Hext). lia.
Qed.

Lemma sum_list_with_le_length (f : string → nat) l :
  (∀ v, f v ≤ 1) → sum_list_with f l ≤ length l.
Proof.
  intros Hf. induction l as [|x l IH]; simpl; [done|]. specialize (Hf x). lia.
Qed.

Lemma finite_count_le g dist : finite_count g dist ≤ length (graph.vertexList g).
Proof.
  apply sum_list_with_le_length. intros v. repeat case_match; lia.
Qed.

Lemma prio_ltb_succ_Fin du d :
  pQ.prio_ltb (pQ.prio_succ du) d = true → ∃ a, du = pQ.Fin a.
Proof. destruct du; [eauto|done]. Qed.

Lemma relaxed_lower dist w (new old : pQ.prio) x y :
  dist !! w = Some old → prio_le new old → x ≠ w →
  relaxed dist x y → relaxed (<[w := new]> dist) x y.
Proof.
  intros Hw Hle Hx Hrel du dy. rewrite lookup_insert_ne by done. intros Hdu.
  rewrite lookup_insert. case_decide as Hy.
  - intros [= <-]. subst y. eapply prio_le_trans; [done|]. by apply Hrel.
  - by apply Hrel.
Qed.

Lemma dict_get_Some (dist : gmap string pQ.prio) k v :
  dist !! k = Some v → graph.dict_get dist k = Ok v.
Proof. unfold graph.dict_get. by intros ->. Qed.

Section dijkstra.
Variable g : graph.Graph.
Variable source : string.
Hypothesis Hwf : wf g.
Hypothesis Hno0 : "0" ∉ graph.vertexList g.

Lemma queue_keys_NoDup (Q Q0 : list pQ.entry) :
  Q0 ⊆+ Q → NoDup Q.*2 → NoDup Q0.*2.
Proof.
  intros [k Hk]%submseteq_Permutation Hnd. rewrite Hk, fmap_app in Hnd.
  by apply NoDup_app in Hnd as [? _].
Qed.

(** one relaxation that lowers [dist[w]] *)
Lemma relax_step dist pq u a w d :
  dijkstra_inv g source dist pq → settled g dist pq (Some u) →
  dist !! u = Some (pQ.Fin a) → u ∉ (queue pq).*2 → edge g u w →
  dist !! w = Some d → pQ.prio_ltb (pQ.Fin (a + 1)) d = true →
  ∃ pq', pQ.editHeap pq w (pQ.Fin (a + 1), w) = Ok pq' ∧
         dijkstra_inv g source (<[w := pQ.Fin (a + 1)]> dist) pq' ∧
         settled g (<[w := pQ.Fin (a + 1)]> dist) pq' (Some u) ∧
         (u ∉ (queue pq').*2) ∧ w ≠ u ∧
         2 * potential g (<[w := pQ.Fin (a + 1)]> dist) + length (queue pq')
         < 2 * potential g dist + length (queue pq).
Proof.
  intros (Hsh & Hnd & Hq & Hdom & Hsrc & Hfin) Hset Hu Huq Hedge Hw Hlt.
  assert (w ∈ graph.vertexList g) as HwV by (by eapply wf_closed).
  destruct (Hfin u a Hu) as (Ha & Hwalk & Hcount).
  assert (w ≠ u) as Hwu.
  { intros ->. rewrite Hu in Hw. simplify_eq. simpl in Hlt.
    apply bool_decide_eq_true in Hlt. lia. }
  assert (prio_le (pQ.Fin (a + 1)) d) as Hle by (by apply prio_ltb_le).
  destruct (editHeap_spec pq w (pQ.Fin (a + 1), w) Hsh)
    as (pq' & Q0 & Hedit & Hsh' & Hperm & Hsub & Hfresh & Hkeep).
  { by intros ->. }
  specialize (Hfresh Hnd).
  assert (finite_count g (<[w := pQ.Fin (a + 1)]> dist)
          + match d with pQ.Fin _ => 1 | pQ.Inf => 0 end
          = finite_count g dist + 1) as Hfc.
  { unfold finite_count.
    pose proof (sum_list_with_update
      (λ v, match dist !! v with Some (pQ.Fin _) => 1 | _ => 0 end)
      (λ v, match <[w := pQ.Fin (a + 1)]> dist !! v with
            | Some (pQ.Fin _) => 1 | _ => 0 end)
      (graph.vertexList g) w (proj1 Hwf) HwV) as Hupd.
    cbv beta in Hupd. rewrite Hw, lookup_insert_eq in Hupd.
    specialize (Hupd ltac:(intros v Hv; by rewrite lookup_insert_ne)).
    destruct d; lia. }
  assert (potential g (<[w := pQ.Fin (a + 1)]> dist) < potential g dist) as Hpot.
  { unfold potential.
    pose proof (sum_list_with_update
      (λ v, match dist !! v with
            | Some (pQ.Fin d) => Z.to_nat d
            | Some pQ.Inf => length (graph.vertexList g)
            | None => 0 end)
      (λ v, match <[w := pQ.Fin (a + 1)]> dist !! v with
            | Some (pQ.Fin d) => Z.to_nat d
            | Some pQ.Inf => length (graph.vertexList g)
            | None => 0 end)
      (graph.vertexList g) w (proj1 Hwf) HwV) as Hupd.
    cbv beta in Hupd. rewrite Hw, lookup_insert_eq in Hupd.
    specialize (Hupd ltac:(intros v Hv; by rewrite lookup_insert_ne)).
    pose proof (finite_count_le g (<[w := pQ.Fin (a + 1)]> dist)).
    destruct d as [b|]; simpl in *.
    - apply bool_decide_eq_true in Hlt. lia.
    - lia. }
  exists pq'. split_and!; try done.
  - split_and!; try done.
    + rewrite Hperm. simpl. apply NoDup_cons. split; [done|].
      by eapply queue_keys_NoDup.
    + intros p k. rewrite Hperm. intros [[= -> ->]|Hin]%elem_of_cons.
      { by rewrite lookup_insert_eq. }
      rewrite lookup_insert_ne.
      * apply Hq. by eapply elem_of_submseteq.
      * intros Hkw. subst k. apply Hfresh. apply list_elem_of_fmap. by exists (p, w).
    + intros v. rewrite lookup_insert_is_Some, <- Hdom.
      destruct (decide (w = v)) as [->|]; intuition.
    + rewrite lookup_insert_ne; [done|]. intros ->.
      rewrite Hsrc in Hw. simplify_eq. simpl in Hlt.
      apply bool_decide_eq_true in Hlt. lia.
    + intros v dv. rewrite lookup_insert. case_decide as Hv.
      * intros [= <-]. subst v. split_and!; [lia| |].
        -- replace (Z.to_nat (a + 1)) with (S (Z.to_nat a)) by lia.
           by eapply nsteps_r.
        -- destruct d as [b|]; simpl in *.
           ++ apply bool_decide_eq_true in Hlt.
              destruct (Hfin w b Hw) as (_ & _ & ?). lia.
           ++ lia.
      * intros Hdv. destruct (Hfin v dv Hdv) as (? & ? & ?).
        split_and!; [done..|]. destruct d; lia.
  - intros x y Hx Hxu He.
    assert (x ≠ w) as Hxw.
    { intros ->. apply Hx. rewrite Hperm. simpl. by left. }
    apply (relaxed_lower dist w _ d); [done..|].
    apply Hset; [|done..]. intros Hin. apply Hx. rewrite Hperm. simpl.
    right. by apply Hkeep.
  - rewrite Hperm. simpl. intros [?|Hin]%elem_of_cons; [done|].
    apply Huq. apply list_elem_of_fmap in Hin as (e & -> & He).
    apply list_elem_of_fmap. exists e. split; [done|]. by eapply elem_of_submseteq.
  - rewrite Hperm. simpl. apply submseteq_length in Hsub. lia.
Qed.

(** the [for] loop that relaxes the edges out of the tuple taken off *)
Lemma Dijkstra_relax_spec ns dist pq u du :
  dijkstra_inv g source dist pq → settled g dist pq (Some u) →
  dist !! u = Some du → u ∉ (queue pq).*2 → (∀ w, w ∈ ns → edge g u w) →
  ∃ dist' pq', graph.Dijkstra_relax (du, u) ns dist pq = Ok (dist', pq') ∧
    dijkstra_inv g source dist' pq' ∧ settled g dist' pq' (Some u) ∧
    dist' !! u = Some du ∧ (u ∉ (queue pq').*2) ∧
    (∀ w, relaxed dist u w → relaxed dist' u w) ∧
    (∀ w, w ∈ ns → relaxed dist' u w) ∧
    2 * potential g dist' + length (queue pq')
    ≤ 2 * potential g dist + length (queue pq).
Proof.
  revert dist pq. induction ns as [|w ns IH]; intros dist pq Hinv Hset Hu Huq Hedges.
  { exists dist, pq. split_and!; try done. by intros w ?%elem_of_nil. }
  assert (edge g u w) as Hedge by (apply Hedges; by left).
  assert (∀ w', w' ∈ ns → edge g u w') as Hedges' by (intros; apply Hedges; by right).
  assert (is_Some (dist !! w)) as [d Hw].
  { apply Hinv. by eapply wf_closed. }
  cbn [graph.Dijkstra_relax fst]. rewrite (dict_get_Some dist w d Hw). simpl.
  destruct (pQ.prio_ltb (pQ.prio_succ du) d) eqn:Hlt.
  - destruct (prio_ltb_succ_Fin du d Hlt) as [a ->]. simpl in Hlt.
    destruct (relax_step dist pq u a w d) as (pq1 & Hedit & Hinv1 & Hset1 & Huq1 & Hwu & Hpot1);
      try done.
    rewrite (dict_get_Some _ w (pQ.Fin (a + 1))) by apply lookup_insert_eq.
    simpl. rewrite Hedit. simpl.
    destruct (IH (<[w := pQ.Fin (a + 1)]> dist) pq1)
      as (dist' & pq' & -> & Hinv' & Hset' & Hu' & Huq' & Hmono & Hall & Hpot');
      try done.
    { by rewrite lookup_insert_ne. }
    exists dist', pq'. split_and!; try done.
    + intros x Hx. apply Hmono.
      apply (relaxed_lower dist w _ d); [done|by apply prio_ltb_le|done..].
    + intros w' [->|Hw']%elem_of_cons; [|by apply Hall].
      apply Hmono. intros du' dw. rewrite lookup_insert_ne by done.
      rewrite lookup_insert_eq, Hu. intros [= <-] [= <-]. apply prio_le_refl.
    + lia.
  - destruct (IH dist pq)
      as (dist' & pq' & -> & Hinv' & Hset' & Hu' & Huq' & Hmono & Hall & Hpot');
      try done.
    exists dist', pq'. split_and!; try done.
    intros w' [->|Hw']%elem_of_cons; [|by apply Hall].
    apply Hmono. intros du' dw. rewrite Hu, Hw. by intros [= <-] [= <-].
Qed.

(** the [while] loop: with fuel for the potential it ends, and then no
    edge of the graph needs relaxation *)
Lemma Dijkstra_loop_spec fuel dist pq :
  dijkstra_inv g source dist pq → settled g dist pq None →
  2 * potential g dist + length (queue pq) ≤ fuel →
  ∃ dist' pq', graph.Dijkstra_loop fuel g dist pq = Ok dist' ∧
               dijkstra_inv g source dist' pq' ∧
               ∀ x w, edge g x w → relaxed dist' x w.
Proof.
  revert dist pq. induction fuel as [|fuel IH]; intros dist pq Hinv Hset Hfuel.
  - assert (queue pq = []) as Hq by (apply nil_length_inv; lia).
    assert (pQ.isEmpty pq = true) as Hemp.
    { destruct Hinv as (Hsh & _). rewrite isEmpty_size by done.
      apply bool_decide_eq_true. destruct Hsh as [H0 Hlen]. unfold queue in Hq.
      destruct (pQ.heapList pq) as [|? [|]]; simpl in *; (done || lia). }
    simpl. rewrite Hemp. exists dist, pq. split_and!; try done.
    intros x w. apply Hset; [|done]. rewrite Hq. apply not_elem_of_nil.
  - cbn [graph.Dijkstra_loop]. destruct (pQ.isEmpty pq) eqn:Hemp.
    { exists dist, pq. split_and!; try done.
      intros x w. apply Hset; [|done].
      apply bool_decide_eq_true in Hemp. unfold queue. rewrite Hemp.
      apply not_elem_of_nil. }
    pose proof Hinv as (Hsh & Hnd & Hq & Hdom & Hsrc & Hfin).
    rewrite isEmpty_size in Hemp by done. apply bool_decide_eq_false in Hemp.
    pose proof (shape_size pq Hsh) as Hcs.
    destruct (delMin_spec pq Hsh) as ([du u] & pq1 & -> & Hx & Hsh1 & Hcs1 & Hperm & _);
      [lia|]. simpl.
    change (tail (pQ.heapList pq)) with (queue pq) in Hperm.
    change (tail (pQ.heapList pq1)) with (queue pq1) in Hperm.
    assert (dist !! u = Some du) as Hu.
    { apply Hq. rewrite Hperm. by left. }
    rewrite Hperm in Hnd. simpl in Hnd. apply NoDup_cons in Hnd as [Huq Hnd1].
    destruct (getConns_wf g u) as [ns Hns]; [intros x; by apply wf_keys| |].
    { apply Hdom. eauto. }
    rewrite Hns. simpl.
    destruct (Dijkstra_relax_spec ns dist pq1 u du)
      as (dist2 & pq2 & -> & Hinv2 & Hset2 & Hu2 & Huq2 & _ & Hall & Hpot); try done.
    { split_and!; try done. intros p k Hin. apply Hq. rewrite Hperm. by right. }
    { intros x w Hx1 Hxu. apply Hset; [|done]. rewrite Hperm. simpl.
      intros [->|?]%elem_of_cons; [by apply Hxu|done]. }
    { intros w Hw. by exists ns. }
    simpl. apply (IH dist2 pq2); [done| |].
    + intros x w Hx2 _ He. destruct (decide (x = u)) as [->|Hxu].
      * apply Hall. destruct He as (ns' & Hns' & Hw). congruence.
      * apply Hset2; [done| |done]. by intros [= ->].
    + rewrite Hperm in Hfuel. simpl in Hfuel. lia.
Qed.

Lemma Dijkstra_init_spec l dist pq :
  shape pq →
  ∃ dist' pq', graph.Dijkstra_init l source dist pq = Ok (dist', pq') ∧
    shape pq' ∧ queue pq' ≡ₚ queue pq ++ ((λ v, (initial_dist source v, v)) <$> l) ∧
    ∀ v, dist' !! v = if decide (v ∈ l) then Some (initial_dist source v) else dist !! v.
Proof.
  revert dist pq. induction l as [|node l IH]; intros dist pq Hsh.
  { exists dist, pq. split_and!; try done. by rewrite app_nil_r. }
  cbn [graph.Dijkstra_init].
  set (dist1 := if bool_decide (node ≠ source) then <[node := pQ.Inf]> dist
                else <[node := pQ.Fin 0]> dist).
  assert (dist1 = <[node := initial_dist source node]> dist) as ->.
  { unfold dist1, initial_dist. by case_bool_decide. }
  rewrite (dict_get_Some _ node (initial_dist source node)) by apply lookup_insert_eq. simpl.
  destruct (insert_spec pq (initial_dist source node, node) Hsh) as (pq1 & -> & Hsh1 & _ & Hperm1 & _).
  simpl. destruct (IH (<[node := initial_dist source node]> dist) pq1 Hsh1)
    as (dist' & pq' & -> & Hsh' & Hperm' & Hlook).
  exists dist', pq'. split_and!; try done.
  - rewrite Hperm'. unfold queue at 1. rewrite Hperm1. simpl.
    by rewrite <- app_assoc.
  - intros v. rewrite Hlook. destruct (decide (v ∈ l)) as [Hv|Hv].
    + rewrite decide_True; [done|]. by right.
    + rewrite lookup_insert. destruct (decide (node = v)) as [->|Hne].
      * rewrite decide_True; [done|]. by left.
      * rewrite decide_False; [done|]. by intros [?|?]%elem_of_cons.
Qed.

Lemma sum_list_with_bound (f : string → nat) l n :
  (∀ v, v ∈ l → f v ≤ n) → sum_list_with f l ≤ length l * n.
Proof.
  induction l as [|x l IH]; intros Hf; simpl; [done|].
  assert (f x ≤ n) by (apply Hf; by left).
  assert (sum_list_with f l ≤ length l * n); [|lia].
  apply IH. intros v Hv. apply Hf. by right.
Qed.

(** once no edge needs relaxation, a vertex [n] edges away from the source
    has a distance of at most [n] *)
Lemma relaxed_walk dist n v :
  (∀ v, v ∈ graph.vertexList g ↔ is_Some (dist !! v)) →
  dist !! source = Some (pQ.Fin 0) →
  (∀ x w, edge g x w → relaxed dist x w) →
  nsteps (edge g) n source v →
  ∃ d, dist !! v = Some (pQ.Fin d) ∧ Z.to_nat d ≤ n.
Proof.
  intros Hdom Hsrc Hrel. revert v. induction n as [|n IH]; intros v Hsteps.
  { inversion Hsteps; subst. exists 0%Z. split; [done|lia]. }
  apply nsteps_inv_r in Hsteps as (x & Hsteps & Hedge).
  destruct (IH x Hsteps) as (dx & Hdx & Hle).
  assert (is_Some (dist !! v)) as [dv Hdv].
  { apply Hdom. by eapply wf_closed. }
  pose proof (Hrel x v Hedge (pQ.Fin dx) dv Hdx Hdv) as Hr.
  unfold prio_le in Hr. destruct dv as [d|]; simpl in Hr; [|done].
  apply bool_decide_eq_false in Hr. exists d. split; [done|lia].
Qed.

(** on a graph with no vertex named ['0'], [Dijkstra] from a vertex of the
    graph returns, given fuel for twice the square of the number of
    vertices plus that number; the mapping has the vertices as keys, the
    source at 0, every vertex that the source reaches at the least number
    of edges of a walk from the source, and the others at infinity *)
Lemma Dijkstra_correct fuel :
  source ∈ graph.vertexList g →
  2 * (length (graph.vertexList g) * length (graph.vertexList g))
  + length (graph.vertexList g) ≤ fuel →
  ∃ dist, graph.Dijkstra fuel g source = Ok dist ∧
    (∀ v, v ∈ graph.vertexList g ↔ is_Some (dist !! v)) ∧
    dist !! source = Some (pQ.Fin 0) ∧
    (∀ v d, dist !! v = Some (pQ.Fin d) →
       (0 ≤ d)%Z ∧ nsteps (edge g) (Z.to_nat d) source v ∧
       ∀ n, nsteps (edge g) n source v → Z.to_nat d ≤ n) ∧
    (∀ v, dist !! v = Some pQ.Inf → ∀ n, ¬ nsteps (edge g) n source v).
Proof.
  intros Hsrc Hfuel. unfold graph.Dijkstra.
  destruct (Dijkstra_init_spec (graph.vertexList g) ∅ pQ.init shape_init)
    as (dist0 & pq0 & -> & Hsh0 & Hperm0 & Hlook0). simpl in Hperm0. simpl.
  assert (∀ v, v ∈ graph.vertexList g → dist0 !! v = Some (initial_dist source v)) as Hin0.
  { intros v Hv. by rewrite Hlook0, decide_True. }
  assert (∀ v, v ∉ graph.vertexList g → dist0 !! v = None) as Hout0.
  { intros v Hv. by rewrite Hlook0, decide_False. }
  assert ((queue pq0).*2 ≡ₚ graph.vertexList g) as Hkeys0.
  { rewrite Hperm0, <- list_fmap_compose. simpl. by rewrite list_fmap_id. }
  destruct (Dijkstra_loop_spec fuel dist0 pq0)
    as (dist & pq & -> & (_ & _ & _ & Hdom & Hs & Hfin) & Hrel).
  - split_and!; try done.
    + rewrite Hkeys0. apply Hwf.
    + intros p k. rewrite Hperm0. intros (v & [= -> ->] & Hv)%list_elem_of_fmap.
      by apply Hin0.
    + intros v. destruct (decide (v ∈ graph.vertexList g)) as [Hv|Hv].
      * rewrite (Hin0 v Hv). split; eauto.
      * rewrite (Hout0 v Hv). split; [done|]. by intros [? ?].
    + rewrite (Hin0 source Hsrc). unfold initial_dist.
      by rewrite bool_decide_eq_false_2 by (by intros ?).
    + intros v d Hv. assert (v ∈ graph.vertexList g) as HvV.
      { destruct (decide (v ∈ graph.vertexList g)); [done|].
        by rewrite Hout0 in Hv. }
      rewrite (Hin0 v HvV) in Hv. unfold initial_dist in Hv.
      case_bool_decide as Hvs; [done|]. simplify_eq. split_and!; [done|constructor|].
      apply Nat.lt_le_trans with 1; [simpl; lia|].
      unfold finite_count.
      etrans; [|apply (sum_list_with_in source); done].
      rewrite (Hin0 source Hsrc). unfold initial_dist.
      by rewrite bool_decide_eq_false_2 by (by intros ?).
  - intros x w Hx _ He. exfalso. apply Hx. rewrite Hkeys0. by eapply edge_source.
  - assert (potential g dist0 ≤ length (graph.vertexList g) * length (graph.vertexList g)).
    { apply sum_list_with_bound. intros v Hv. rewrite (Hin0 v Hv).
      unfold initial_dist. case_bool_decide; simpl; lia. }
    assert (length (queue pq0) = length (graph.vertexList g)).
    { by rewrite Hperm0, length_fmap. }
    lia.
  - exists dist. split_and!; try done.
    + intros v d Hv. destruct (Hfin v d Hv) as (? & ? & _). split_and!; try done.
      intros n Hn. destruct (relaxed_walk dist n v Hdom Hs Hrel Hn) as (d' & Hd' & ?).
      by simplify_eq.
    + intros v Hv n Hn.
      destruct (relaxed_walk dist n v Hdom Hs Hrel Hn) as (d' & Hd' & ?).
      by simplify_eq.
Qed.

End dijkstra.

(** ** The two searches agree *)

Lemma nsteps_is_path g n s e :
  nsteps (edge g) n s e → ∃ P, is_path g s e P ∧ length P = S n.
Proof.
  induction 1 as [s|n s y e Hedge _ (P & HP & Hlen)].
  - exists [s]. by split_and!.
  - exists (s :: P). split; [by eapply is_path_cons|]. simpl. lia.
Qed.

Lemma is_path_nsteps g s e P :
  is_path g s e P → nsteps (edge g) (pred (length P)) s e.
Proof.
  revert s. induction P as [|u P IH]; intros s (Hh & Hl & Hc); [done|].
  simplify_eq/=. destruct P as [|n P].
  - simplify_eq/=. constructor.
  - destruct Hc as [Hedge Hc]. eapply nsteps_l; [done|].
    apply (IH n). by split_and!.
Qed.

(** on a graph with no vertex named ['0']: the distance [Dijkstra] gives a
    vertex is one less than the length of the path [find_shortest_path]
    returns, and it is infinite exactly when that search returns [None] *)
Lemma Dijkstra_find_shortest_path g source fuel v :
  wf g → "0" ∉ graph.vertexList g → source ∈ graph.vertexList g →
  v ∈ graph.vertexList g →
  2 * (length (graph.vertexList g) * length (graph.vertexList g))
  + length (graph.vertexList g) ≤ fuel →
  ∃ dist r, graph.Dijkstra fuel g source = Ok dist ∧
            graph.find_shortest_path g source v = Ok r ∧
            dist !! v = Some (match r with
                              | Some P => pQ.Fin (Z.of_nat (length P) - 1)
                              | None => pQ.Inf
                              end).
Proof.
  intros Hwf Hno0 Hsrc Hv Hfuel.
  destruct (Dijkstra_correct g source Hwf Hno0 fuel Hsrc Hfuel)
    as (dist & Hd & Hdom & _ & Hfin & Hinf).
  destruct (find_shortest_path_spec g source v Hwf)
    as (r & Hr & _ & _ & Hsome & Hnone).
  exists dist, r. split_and!; [done..|].
  destruct (proj1 (Hdom v) Hv) as [[d|] Hdv]; rewrite Hdv; f_equal.
  - destruct (Hfin v d Hdv) as (Hd0 & Hwalk & Hmin).
    destruct (nsteps_is_path g _ _ _ Hwalk) as (Q & HQ & HlenQ).
    destruct r as [P|]; [|by destruct (Hnone eq_refl Q)].
    destruct (Hsome P eq_refl) as [HP HPmin].
    specialize (HPmin Q HQ). specialize (Hmin _ (is_path_nsteps g _ _ _ HP)).
    f_equal. destruct HP as (Hh & _). destruct P; [done|]. simpl in *. lia.
  - destruct r as [P|]; [|done].
    destruct (Hsome P eq_refl) as [HP _].
    by destruct (Hinf v Hdv _ (is_path_nsteps g _ _ _ HP)).
Qed.

(** * Further properties *)

(** ** The graph container *)

Lemma edge_connections g u v :
  wf g → edge g u v ↔ ∃ ns, graph.connections g !! u = Some ns ∧ v ∈ ns.
Proof.
  intros Hwf. split.
  - intros (ns & Hc & Hv). apply getConns_Some in Hc as [_ Hc]. eauto.
  - intros (ns & Hc & Hv). exists ns. split; [|done].
    unfold graph.getConns, graph.hasVert.
    rewrite bool_decide_eq_true_2; [simpl; by rewrite Hc|].
    apply Hwf. eauto.
Qed.

Lemma addVertex_idem g v :
  graph.addVertex (graph.addVertex g v) v = graph.addVertex g v.
Proof.
  unfold graph.addVertex at 1. by rewrite bool_decide_eq_true_2 by apply addVertex_elem.
Qed.

Lemma addVertex_edge g v a b :
  wf g → edge (graph.addVertex g v) a b ↔ edge g a b.
Proof.
  intros Hwf. rewrite !edge_connections by (done || by apply wf_addVertex).
  unfold graph.addVertex. case_bool_decide as Hv; [done|]. simpl.
  rewrite lookup_insert. case_decide as Ha; [|done]. subst a.
  assert (graph.connections g !! v = None) as Hnone.
  { destruct (graph.connections g !! v) eqn:E; [|done].
    exfalso. apply Hv, Hwf. eauto. }
  rewrite Hnone. split; intros (ns & Hns & Hb); simplify_eq.
  by apply elem_of_nil in Hb.
Qed.

Lemma addVertex_vertexList g v :
  graph.vertexList (graph.addVertex g v)
  = graph.vertexList g ++ (if decide (v ∈ graph.vertexList g) then [] else [v]).
Proof.
  unfold graph.addVertex. case_bool_decide; simpl.
  - rewrite decide_True by done. by rewrite app_nil_r.
  - by rewrite decide_False by done.
Qed.

Lemma addConn_spec g v1 v2 :
  wf g →
  ∃ g', graph.addConn g v1 v2 = Ok g' ∧ wf g' ∧
        (∀ a b, edge g' a b ↔ edge g a b ∨ (a = v1 ∧ b = v2)) ∧
        graph.vertexList g'
        = graph.vertexList g
          ++ (if decide (v1 ∈ graph.vertexList g) then [] else [v1])
          ++ (if decide (v2 ∈ graph.vertexList g ∨ v2 = v1) then [] else [v2]).
Proof.
  intros Hwf. unfold graph.addConn.
  set (g1 := if bool_decide (v1 ∈ graph.vertexList g) then g
             else graph.addVertex g v1).
  set (g2 := if bool_decide (v2 ∈ graph.vertexList g1) then g1
             else graph.addVertex g1 v2).
  assert (g1 = graph.addVertex g v1) as Hg1.
  { unfold g1, graph.addVertex. by case_bool_decide. }
  assert (g2 = graph.addVertex g1 v2) as Hg2.
  { unfold g2, graph.addVertex. by case_bool_decide. }
  clearbody g1 g2. subst g1.
  assert (wf (graph.addVertex g v1)) as Hwf1 by (by apply wf_addVertex).
  assert (wf g2) as Hwf2 by (subst g2; by apply wf_addVertex).
  assert (∀ a b, edge g2 a b ↔ edge g a b) as Hedge2.
  { intros a b. subst g2. by rewrite !addVertex_edge. }
  assert (graph.vertexList g2
          = graph.vertexList g
            ++ (if decide (v1 ∈ graph.vertexList g) then [] else [v1])
            ++ (if decide (v2 ∈ graph.vertexList g ∨ v2 = v1) then [] else [v2]))
    as HV2.
  { subst g2. rewrite !addVertex_vertexList, <- app_assoc. do 2 f_equal.
    destruct (decide (v1 ∈ graph.vertexList g)) as [H1|H1].
    - rewrite app_nil_r. destruct (decide (v2 ∈ graph.vertexList g)) as [H2|H2].
      + rewrite decide_True; [done|by left].
      + rewrite decide_False; [done|].
        intros [?| ->]; [done|done].
    - destruct (decide (v2 ∈ graph.vertexList g ++ [v1])) as [H2|H2].
      + rewrite decide_True; [done|].
        apply elem_of_app in H2 as [?| ->%list_elem_of_singleton]; [by left|by right].
      + rewrite decide_False; [done|]. intros [?| ->]; apply H2, elem_of_app;
          [by left|right; by left]. }
  assert (v1 ∈ graph.vertexList g2) as Hv1.
  { subst g2. apply addVertex_mono, addVertex_elem. }
  destruct (wf_keys g2 v1 Hwf2 Hv1) as [ns Hns]. rewrite Hns.
  case_bool_decide as Hin.
  { exists g2. split_and!; try done. intros a b. rewrite Hedge2.
    split; [by left|]. intros [?|[-> ->]]; [done|].
    apply Hedge2, edge_connections; eauto. }
  assert (wf (graph.mkGraph (graph.vertexList g2)
                (<[v1:=ns ++ [v2]]> (graph.connections g2)))) as Hwf'.
  { destruct (wf_addConn g2 v1 v2 Hwf2) as (g' & Hg' & Hwf').
    unfold graph.addConn in Hg'. cbv zeta in Hg'.
    rewrite (bool_decide_eq_true_2 (v1 ∈ graph.vertexList g2)) in Hg' by done.
    rewrite (bool_decide_eq_true_2 (v2 ∈ graph.vertexList g2)) in Hg'
      by (subst g2; apply addVertex_elem).
    rewrite Hns, bool_decide_eq_false_2 in Hg' by done. by simplify_eq. }
  eexists. split_and!; [done|exact Hwf'| |exact HV2].
  intros a b. rewrite <- Hedge2. rewrite !edge_connections by done. simpl.
  destruct (decide (v1 = a)) as [<-|Ha].
  - rewrite lookup_insert_eq, Hns. split.
    + intros (ns' & [= <-] & [?| ->%list_elem_of_singleton]%elem_of_app); eauto.
    + intros [(ns' & [= <-] & Hb)|[_ ->]]; eexists; (split; [done|]);
        apply elem_of_app; [by left|right; by left].
  - rewrite lookup_insert_ne by done. split; [by left|]. by intros [?|[-> _]].
Qed.

(** X1: on a well-formed graph [addVertex] keeps the graph well formed and
    its edges as they were; the vertex is in the graph afterwards, listed
    last if it is new and then with no connections; a second call with the
    same vertex changes nothing. *)
Theorem addVertex_once g v :
  wf g →
  wf (graph.addVertex g v) ∧
  graph.hasVert (graph.addVertex g v) v = true ∧
  graph.addVertex (graph.addVertex g v) v = graph.addVertex g v ∧
  graph.getNodes (graph.addVertex g v)
  = graph.getNodes g ++ (if decide (v ∈ graph.getNodes g) then [] else [v]) ∧
  (∀ a b, edge (graph.addVertex g v) a b ↔ edge g a b) ∧
  (graph.hasVert g v = false →
   graph.getConns (graph.addVertex g v) v = Ok (Some [])).
Proof.
  intros Hwf. split_and!.
  - by apply wf_addVertex.
  - apply bool_decide_eq_true, addVertex_elem.
  - apply addVertex_idem.
  - apply addVertex_vertexList.
  - intros a b. by apply addVertex_edge.
  - intros Hv%bool_decide_eq_false. unfold graph.getConns, graph.hasVert.
    rewrite bool_decide_eq_true_2 by apply addVertex_elem. simpl.
    unfold graph.addVertex. rewrite bool_decide_eq_false_2 by done. simpl.
    by rewrite lookup_insert_eq.
Qed.

Lemma addVertex_once_witness :
  wf (graph.addVertex doctest_graph "K") ∧
  graph.hasVert (graph.addVertex doctest_graph "K") "K" = true ∧
  graph.addVertex (graph.addVertex doctest_graph "K") "K"
  = graph.addVertex doctest_graph "K" ∧
  graph.getNodes (graph.addVertex doctest_graph "K")
  = graph.getNodes doctest_graph
    ++ (if decide ("K" ∈ graph.getNodes doctest_graph) then [] else ["K"]) ∧
  (∀ a b, edge (graph.addVertex doctest_graph "K") a b ↔ edge doctest_graph a b) ∧
  (graph.hasVert doctest_graph "K" = false →
   graph.getConns (graph.addVertex doctest_graph "K") "K" = Ok (Some [])).
Proof.
  apply addVertex_once.
  apply (build_Ok_wf [("A", "B"); ("A", "C"); ("B", "C"); ("C", "D")]).
  vm_compute. reflexivity.
Defined.

(** X2: on a well-formed graph [addConn(v1, v2)] does not raise and gives a
    well-formed graph whose edges are the old ones and the edge from [v1]
    to [v2]; the vertices it had to add are listed last, [v1] before [v2];
    the same call a second time changes nothing. *)
Theorem addConn_adds_edge g v1 v2 :
  wf g →
  ∃ g', graph.addConn g v1 v2 = Ok g' ∧ wf g' ∧
        (∀ a b, edge g' a b ↔ edge g a b ∨ (a = v1 ∧ b = v2)) ∧
        graph.getNodes g'
        = graph.getNodes g
          ++ (if decide (v1 ∈ graph.getNodes g) then [] else [v1])
          ++ (if decide (v2 ∈ graph.getNodes g ∨ v2 = v1) then [] else [v2]) ∧
        graph.addConn g' v1 v2 = Ok g'.
Proof.
  intros Hwf.
  destruct (addConn_spec g v1 v2 Hwf) as (g' & Hg' & Hwf' & Hedge & HV).
  exists g'. split_and!; try done.
  assert (edge g' v1 v2) as He by (apply Hedge; by right).
  pose proof (edge_source _ _ _ He) as Hv1.
  pose proof (wf_closed _ _ _ Hwf' He) as Hv2.
  apply edge_connections in He as (ns & Hns & Hin); [|done].
  unfold graph.addConn. cbv zeta.
  rewrite (bool_decide_eq_true_2 (v1 ∈ graph.vertexList g')) by done.
  rewrite (bool_decide_eq_true_2 (v2 ∈ graph.vertexList g')) by done.
  by rewrite Hns, bool_decide_eq_true_2 by done.
Qed.

Lemma addConn_adds_edge_witness :
  ∃ g', graph.addConn doctest_graph "D" "K" = Ok g' ∧ wf g' ∧
        (∀ a b, edge g' a b ↔ edge doctest_graph a b ∨ (a = "D" ∧ b = "K")) ∧
        graph.getNodes g'
        = graph.getNodes doctest_graph
          ++ (if decide ("D" ∈ graph.getNodes doctest_graph) then [] else ["D"])
          ++ (if decide ("K" ∈ graph.getNodes doctest_graph ∨ "K" = "D")
              then [] else ["K"]) ∧
        graph.addConn g' "D" "K" = Ok g'.
Proof.
  apply addConn_adds_edge.
  apply (build_Ok_wf [("A", "B"); ("A", "C"); ("B", "C"); ("C", "D")]).
  vm_compute. reflexivity.
Defined.

Lemma build_from_spec conns g0 :
  wf g0 →
  ∃ g, foldl (λ r c, g ← r; graph.addConn g c.1 c.2) (Ok g0) conns = Ok g ∧
       wf g ∧
       (∀ a b, edge g a b ↔ edge g0 a b ∨ (a, b) ∈ conns) ∧
       (∀ v, v ∈ graph.vertexList g ↔
             v ∈ graph.vertexList g0 ∨
             ∃ a b, (a, b) ∈ conns ∧ (v = a ∨ v = b)).
Proof.
  revert g0. induction conns as [|[v1 v2] conns IH]; intros g0 Hwf; simpl.
  { exists g0. split_and!; try done.
    - intros a b. split; [by left|]. by intros [?|?%elem_of_nil].
    - intros v. split; [by left|]. by intros [?|(a & b & ?%elem_of_nil & _)]. }
  destruct (addConn_spec g0 v1 v2 Hwf) as (g1 & -> & Hwf1 & Hedge1 & HV1).
  destruct (IH g1 Hwf1) as (g & Hg & Hwfg & Hedge & HV).
  exists g. split_and!; try done.
  - intros a b. rewrite Hedge, Hedge1, elem_of_cons. split.
    + intros [[?|[-> ->]]|?]; eauto.
    + intros [?|[[= -> ->]|?]]; eauto.
  - intros v. rewrite HV, HV1, !elem_of_app. split.
    + intros [[?|[Hv|Hv]]|(a & b & Hab & Hv)].
      * by left.
      * right. exists v1, v2. split; [by left|].
        destruct (decide (v1 ∈ graph.vertexList g0)); [by apply elem_of_nil in Hv|].
        apply list_elem_of_singleton in Hv. by left.
      * right. exists v1, v2. split; [by left|].
        destruct (decide (v2 ∈ graph.vertexList g0 ∨ v2 = v1));
          [by apply elem_of_nil in Hv|].
        apply list_elem_of_singleton in Hv. by right.
      * right. exists a, b. split; [by right|done].
    + intros [?|(a & b & [[= -> ->]|Hab]%elem_of_cons & Hv)].
      * left. by left.
      * left. destruct Hv as [-> | ->].
        -- destruct (decide (v1 ∈ graph.vertexList g0)); [by left|].
           right. left. by left.
        -- destruct (decide (v2 ∈ graph.vertexList g0 ∨ v2 = v1)) as [[?| ->]|];
             [by left| |right; right; by left].
           destruct (decide (v1 ∈ graph.vertexList g0)); [by left|].
           right. left. by left.
      * right. eauto.
Qed.

(** X3: any sequence of [addConn] calls on a new graph succeeds and gives a
    well-formed graph; its edges are exactly the connections added and its
    vertices exactly their end points. *)
Theorem build_edges conns :
  ∃ g, build conns = Ok g ∧ wf g ∧
       (∀ a b, edge g a b ↔ (a, b) ∈ conns) ∧
       (∀ v, graph.hasVert g v = true ↔
             ∃ a b, (a, b) ∈ conns ∧ (v = a ∨ v = b)).
Proof.
  destruct (build_from_spec conns graph.init wf_init) as (g & Hg & Hwf & He & HV).
  exists g. split_and!; try done.
  - intros a b. rewrite He. split; [|by right].
    intros [(ns & Hc & _)|?]; [|done]. by apply getConns_Some in Hc as [?%elem_of_nil _].
  - intros v. unfold graph.hasVert. rewrite bool_decide_eq_true, HV.
    split; [|by right]. by intros [?%elem_of_nil|?].
Qed.

(** X4: on a well-formed graph [getConns] does not raise; it returns [None]
    exactly for a vertex that is not in the graph, and the vertices of a
    list it returns are in the graph. *)
Theorem getConns_total g v :
  wf g →
  ∃ r, graph.getConns g v = Ok r ∧
       (r = None ↔ graph.hasVert g v = false) ∧
       (∀ ns n, r = Some ns → n ∈ ns → graph.hasVert g n = true).
Proof.
  intros Hwf. unfold graph.getConns.
  destruct (graph.hasVert g v) eqn:Hv; simpl.
  - apply bool_decide_eq_true in Hv.
    destruct (wf_keys g v Hwf Hv) as [ns Hns]. rewrite Hns.
    exists (Some ns). split_and!; [done|done|].
    intros ns' n [= <-] Hn. apply bool_decide_eq_true.
    destruct Hwf as (_ & _ & Hcl). eauto.
  - exists None. by split_and!.
Qed.

Lemma getConns_total_witness :
  ∃ r, graph.getConns doctest_graph "A" = Ok r ∧
       (r = None ↔ graph.hasVert doctest_graph "A" = false) ∧
       (∀ ns n, r = Some ns → n ∈ ns → graph.hasVert doctest_graph n = true).
Proof.
  apply getConns_total.
  apply (build_Ok_wf [("A", "B"); ("A", "C"); ("B", "C"); ("C", "D")]).
  vm_compute. reflexivity.
Defined.

(** ** The searches together *)

Lemma rtc_is_path g s e :
  rtc (edge g) s e ↔ ∃ P, is_path g s e P.
Proof.
  split.
  - intros (n & Hn)%rtc_nsteps.
    destruct (nsteps_is_path g n s e Hn) as (P & HP & _). eauto.
  - intros (P & HP). eapply rtc_nsteps_2. by apply is_path_nsteps.
Qed.

(** X5: on a well-formed graph [check_cycles] returns [True] exactly when
    some edge [u -> v] is closed by a path that [find_shortest_path] finds
    from [v] back to [u]. *)
Theorem check_cycles_find_shortest_path g :
  wf g →
  graph.check_cycles g = Ok true ↔
  ∃ u v P, edge g u v ∧ graph.find_shortest_path g v u = Ok (Some P).
Proof.
  intros Hwf. destruct (check_cycles_spec g Hwf) as (b & -> & Hb).
  assert (has_cycle g ↔
          ∃ u v P, edge g u v ∧ graph.find_shortest_path g v u = Ok (Some P))
    as <-.
  { split.
    - intros (x & (y & He & Hr)%tc_edge_inv). exists x, y.
      apply rtc_is_path in Hr as (Q & HQ).
      destruct (find_shortest_path_spec g y x Hwf) as (r & -> & _ & _ & _ & Hnone).
      destruct r as [P|]; [by exists P|]. by destruct (Hnone eq_refl Q).
    - intros (u & v & P & He & HP). exists u.
      destruct (find_shortest_path_spec g v u Hwf) as (r & Hr & _ & _ & Hsome & _).
      rewrite HP in Hr. simplify_eq. destruct (Hsome P eq_refl) as [Hpath _].
      eapply tc_rtc_r; [by apply tc_once|]. apply rtc_is_path. eauto. }
  rewrite <- Hb. split; [by intros [= ->]|by intros ->].
Qed.

Lemma check_cycles_find_shortest_path_witness :
  graph.check_cycles doctest_graph = Ok true ↔
  ∃ u v P, edge doctest_graph u v ∧
           graph.find_shortest_path doctest_graph v u = Ok (Some P).
Proof.
  apply check_cycles_find_shortest_path.
  apply (build_Ok_wf [("A", "B"); ("A", "C"); ("B", "C"); ("C", "D")]).
  vm_compute. reflexivity.
Defined.

(** ** The heap methods *)

Lemma shape_heapList h : shape h → pQ.heapList h = pQ.sentinel :: queue h.
Proof.
  intros [H0 _]. unfold queue. destruct (pQ.heapList h); by simplify_eq/=.
Qed.

Lemma shape_length h : shape h → Z.of_nat (length (queue h)) = pQ.currentSize h.
Proof.
  intros Hsh. pose proof (shape_heapList h Hsh) as Hl. destruct Hsh as [_ Hlen].
  rewrite Hl in Hlen. simpl in Hlen. lia.
Qed.

(** X6: on a heap with its sentinel and [currentSize] tuples behind it,
    [insert] does not raise; it adds the tuple to the tuples queued, counts
    it in [currentSize], and keeps heap order if the heap had it. *)
Theorem insert_keeps_heap h k :
  shape h →
  ∃ h', pQ.insert h k = Ok h' ∧ shape h' ∧
        pQ.currentSize h' = (pQ.currentSize h + 1)%Z ∧
        queue h' ≡ₚ queue h ++ [k] ∧
        (heap_order h → heap_order h').
Proof. apply insert_spec. Qed.

Lemma insert_keeps_heap_witness :
  ∃ h', pQ.insert pQ.init (pQ.Fin 2, "a") = Ok h' ∧ shape h' ∧
        pQ.currentSize h' = (pQ.currentSize pQ.init + 1)%Z ∧
        queue h' ≡ₚ queue pQ.init ++ [(pQ.Fin 2, "a")] ∧
        (heap_order pQ.init → heap_order h').
Proof. apply insert_keeps_heap. split; reflexivity. Defined.

(** X7: on a non-empty heap in heap order, [delMin] returns a queued tuple
    whose priority no queued tuple is below, takes exactly that tuple out,
    lowers [currentSize] by one and keeps heap order. *)
Theorem delMin_returns_minimum h :
  shape h → heap_order h → pQ.isEmpty h = false →
  ∃ x h', pQ.delMin h = Ok (x, h') ∧
          queue h ≡ₚ x :: queue h' ∧
          (∀ y, y ∈ queue h → prio_le x.1 y.1) ∧
          shape h' ∧ heap_order h' ∧
          pQ.currentSize h' = (pQ.currentSize h - 1)%Z.
Proof.
  intros Hsh Hho Hne. rewrite isEmpty_size in Hne by done.
  apply bool_decide_eq_false in Hne. pose proof (shape_size h Hsh).
  destruct (delMin_spec h Hsh) as (x & h' & Hd & Hx & Hsh' & Hcs & Hperm & Hord);
    [lia|].
  exists x, h'. split_and!; try done; [|by apply Hord].
  intros y [n Hn]%list_elem_of_lookup. unfold queue in Hn.
  rewrite lookup_tail in Hn. apply (root_minimal h x Hho Hx (S n)); [lia|done].
Qed.

Lemma delMin_returns_minimum_witness :
  ∃ x h', pQ.delMin (pQ.mkHeap [pQ.sentinel; (pQ.Fin 2, "a")] 1) = Ok (x, h') ∧
          queue (pQ.mkHeap [pQ.sentinel; (pQ.Fin 2, "a")] 1) ≡ₚ x :: queue h' ∧
          (∀ y, y ∈ queue (pQ.mkHeap [pQ.sentinel; (pQ.Fin 2, "a")] 1) →
                prio_le x.1 y.1) ∧
          shape h' ∧ heap_order h' ∧
          pQ.currentSize h'
          = (pQ.currentSize (pQ.mkHeap [pQ.sentinel; (pQ.Fin 2, "a")] 1) - 1)%Z.
Proof.
  apply delMin_returns_minimum; [split; reflexivity| |reflexivity].
  intros i a b Hi Ha Hb. apply lookup_lt_Some in Hb. simpl in Hb. lia.
Defined.

(** X8: [buildHeap] of any list of tuples does not raise and gives a heap
    in heap order that holds exactly the tuples of the list, with
    [currentSize] their number. *)
Theorem buildHeap_heap (alist : list pQ.entry) :
  ∃ h, pQ.buildHeap alist = Ok h ∧ shape h ∧ heap_order h ∧
       pQ.currentSize h = Z.of_nat (length alist) ∧ queue h ≡ₚ alist.
Proof. apply buildHeap_spec. Qed.

(** X9: [buildHeap] of a list followed by [delMin] until the heap is empty
    returns the tuples of the list with priorities that never decrease. *)
Theorem buildHeap_delMin_sorts (alist : list pQ.entry) :
  ∃ h out, pQ.buildHeap alist = Ok h ∧ pQ.delMin_until_empty h = Ok out ∧
           out ≡ₚ alist ∧ Sorted prio_le out.*1.
Proof.
  destruct (buildHeap_spec alist) as (h & Hb & Hsh & Hho & Hcs & Hperm).
  destruct (drain_spec (Z.to_nat (pQ.currentSize h)) h)
    as (out & Hout & Hperm' & Hsorted); [done|done|lia|].
  exists h, out. split_and!; [done..| |].
  - by rewrite Hperm', Hperm.
  - by apply StronglySorted_Sorted, StronglySorted_fst.
Qed.

Lemma find_name_absent l name i0 :
  name ∉ l.*2 → pQ.find_name l name i0 = None.
Proof.
  revert i0. induction l as [|t l IH]; intros i0 Hn; [done|]. simpl in *.
  apply not_elem_of_cons in Hn as [Hne Hn].
  rewrite bool_decide_eq_false_2 by done. by apply IH.
Qed.

(** X10: when no tuple of the backing list has the key, sentinel included,
    [editHeap] is [insert] of the new tuple. *)
Theorem editHeap_absent_key h name update :
  name ∉ (pQ.heapList h).*2 →
  pQ.editHeap h name update = pQ.insert h update.
Proof. intros Hn. unfold pQ.editHeap. by rewrite find_name_absent. Qed.

Lemma editHeap_absent_key_witness :
  pQ.editHeap pQ.init "a" (pQ.Fin 2, "a") = pQ.insert pQ.init (pQ.Fin 2, "a").
Proof.
  apply editHeap_absent_key. simpl.
  intros [?|?%elem_of_nil]%elem_of_cons; done.
Defined.

Lemma display_scan_None l name : pQ.display_scan l name = None ↔ name ∉ l.*2.
Proof.
  induction l as [|t l IH]; simpl.
  - split; [intros _; apply not_elem_of_nil|done].
  - case_bool_decide as Ht.
    + split; [done|]. intros Hn. exfalso. apply Hn. subst name. by left.
    + rewrite IH, not_elem_of_cons. naive_solver.
Qed.

Lemma display_scan_Some l name t :
  pQ.display_scan l name = Some t →
  ∃ l1 l2, l = l1 ++ t :: l2 ∧ t.2 = name ∧ name ∉ l1.*2.
Proof.
  induction l as [|t' l IH]; simpl; [done|]. case_bool_decide as Ht.
  - intros [= ->]. exists [], l. split_and!; [done..|apply not_elem_of_nil].
  - intros (l1 & l2 & -> & Hn & Hl1)%IH. exists (t' :: l1), l2.
    split_and!; [done..|]. simpl. by apply not_elem_of_cons.
Qed.

Lemma display_scan_unique l name t :
  t ∈ l → t.2 = name → (∀ t', t' ∈ l → t'.2 = name → t' = t) →
  pQ.display_scan l name = Some t.
Proof.
  induction l as [|t' l IH]; intros Hin Ht Huniq; [by apply elem_of_nil in Hin|].
  simpl. case_bool_decide as Ht'.
  - f_equal. apply Huniq; [by left|done].
  - apply elem_of_cons in Hin as [->|Hin]; [done|].
    apply IH; [done..|]. intros t'' Hin''. apply Huniq. by right.
Qed.

(** X11: [display] returns the first tuple of the backing list with the key,
    sentinel included, and [None] exactly when no tuple has it. *)
Theorem display_first h name :
  (pQ.display h name = None ↔ name ∉ (pQ.heapList h).*2) ∧
  (∀ t, pQ.display h name = Some t →
        ∃ l1 l2, pQ.heapList h = l1 ++ t :: l2 ∧ t.2 = name ∧ name ∉ l1.*2).
Proof.
  split; [apply display_scan_None|]. intros t. apply display_scan_Some.
Qed.

Lemma editHeap_cases h name update :
  shape h → name ≠ "0" →
  ∃ h' Q0, pQ.editHeap h name update = Ok h' ∧ shape h' ∧
           queue h' ≡ₚ update :: Q0 ∧
           (((name ∉ (queue h).*2) ∧ Q0 = queue h ∧
             pQ.currentSize h' = (pQ.currentSize h + 1)%Z) ∨
            (∃ t, t.2 = name ∧ queue h ≡ₚ t :: Q0 ∧
                  pQ.currentSize h' = pQ.currentSize h)).
Proof.
  intros Hsh Hname. unfold pQ.editHeap.
  destruct (pQ.find_name (pQ.heapList h) name 0) as [i|] eqn:Hfind.
  - apply find_name_Some in Hfind as (j & t & -> & Hj & Ht). simpl.
    rewrite (shape_heapList h Hsh) in Hj |- *.
    destruct j as [|j]; [by simplify_eq/=|]. simpl in Hj. simpl.
    pose proof (shape_length h Hsh) as Hlen.
    destruct (insert_spec (pQ.mkHeap (pQ.sentinel :: delete j (queue h))
                             (pQ.currentSize h - 1)) update)
      as (h' & -> & Hsh' & Hcs & Hperm & _).
    { split; simpl; [done|]. rewrite length_delete by eauto.
      apply lookup_lt_Some in Hj. lia. }
    exists h', (delete j (queue h)). simpl in *. split_and!; try done.
    + unfold queue at 1. by rewrite Hperm, Permutation_app_comm.
    + right. exists t. split_and!; [done|by apply delete_Permutation|lia].
  - apply find_name_None in Hfind.
    destruct (insert_spec h update Hsh) as (h' & -> & Hsh' & Hcs & Hperm & _).
    exists h', (queue h). split_and!; try done.
    + unfold queue. by rewrite Hperm, Permutation_app_comm.
    + left. split_and!; try done. intros Hin. apply Hfind.
      rewrite (shape_heapList h Hsh). simpl. by right.
Qed.

(** X12: on a heap with its sentinel whose queued keys are all different,
    [editHeap(name, (p, name))] for a key other than ['0'] does not raise;
    afterwards the tuples queued are [(p, name)] and the old tuples of the
    other keys, the keys are still all different, [display(name)] returns
    [(p, name)], and [currentSize] counts the tuples. *)
Theorem editHeap_updates h name p :
  shape h → name ≠ "0" → NoDup (queue h).*2 →
  ∃ h', pQ.editHeap h name (p, name) = Ok h' ∧ shape h' ∧
        queue h' ≡ₚ (p, name) :: filter (λ e, e.2 ≠ name) (queue h) ∧
        NoDup (queue h').*2 ∧
        pQ.display h' name = Some (p, name).
Proof.
  intros Hsh Hname Hnd.
  destruct (editHeap_cases h name (p, name) Hsh Hname)
    as (h' & Q0 & He & Hsh' & Hperm & Hcases).
  assert ((name ∉ Q0.*2) ∧ NoDup Q0.*2 ∧ filter (λ e, e.2 ≠ name) (queue h) ≡ₚ Q0)
    as (Hfresh & Hnd0 & Hfilter).
  { assert (∀ Q : list pQ.entry, name ∉ Q.*2 → filter (λ e, e.2 ≠ name) Q = Q)
      as Hall.
    { intros Q HQ. induction Q as [|e Q IH]; [done|]. simpl in HQ.
      apply not_elem_of_cons in HQ as [Hne HQ].
      rewrite filter_cons_True by (by intros ?). by rewrite IH. }
    destruct Hcases as [(Hn & -> & _)|(t & Ht & HQ & _)].
    - split_and!; [done..|]. by rewrite Hall.
    - rewrite HQ in Hnd. simpl in Hnd. rewrite Ht in Hnd.
      apply NoDup_cons in Hnd as [Hn Hnd0]. split_and!; [done..|].
      rewrite HQ, filter_cons_False by (by intros ?). by rewrite Hall. }
  exists h'. split_and!; try done.
  - by rewrite Hperm, Hfilter.
  - rewrite Hperm. simpl. by apply NoDup_cons.
  - unfold pQ.display. rewrite (shape_heapList h' Hsh'). simpl.
    rewrite bool_decide_eq_false_2 by (by intros ?).
    apply display_scan_unique; [rewrite Hperm; by left|done|].
    intros t'. rewrite Hperm. intros [->|Hin]%elem_of_cons Ht'; [done|].
    exfalso. apply Hfresh. apply list_elem_of_fmap. by exists t'.
Qed.

Lemma editHeap_updates_witness :
  ∃ h', pQ.editHeap (pQ.mkHeap [pQ.sentinel; (pQ.Fin 2, "a")] 1) "a"
          (pQ.Fin 1, "a") = Ok h' ∧ shape h' ∧
        queue h' ≡ₚ (pQ.Fin 1, "a")
          :: filter (λ e, e.2 ≠ "a")
               (queue (pQ.mkHeap [pQ.sentinel; (pQ.Fin 2, "a")] 1)) ∧
        NoDup (queue h').*2 ∧
        pQ.display h' "a" = Some (pQ.Fin 1, "a").
Proof.
  apply editHeap_updates; [split; reflexivity|done|].
  simpl. apply NoDup_singleton.
Defined.

(** X13: on a heap with its sentinel and [currentSize] tuples behind it,
    [isEmpty] holds exactly when [currentSize] is 0, that is when no tuple
    is queued. *)
Theorem isEmpty_iff h :
  shape h →
  (pQ.isEmpty h = true ↔ pQ.currentSize h = 0%Z) ∧
  (pQ.isEmpty h = true ↔ queue h = []).
Proof.
  intros Hsh. rewrite isEmpty_size by done. rewrite bool_decide_eq_true.
  split; [done|]. rewrite <- (shape_length h Hsh).
  destruct (queue h); simpl; split; (done || lia).
Qed.

Lemma isEmpty_iff_witness :
  (pQ.isEmpty pQ.init = true ↔ pQ.currentSize pQ.init = 0%Z) ∧
  (pQ.isEmpty pQ.init = true ↔ queue pQ.init = []).
Proof. apply isEmpty_iff. split; reflexivity. Defined.

Lemma contains_spec h x :
  pQ.contains h x = true ↔ ∃ t, t ∈ pQ.heapList h ∧ pQ.in_tuple x t = true.
Proof.
  unfold pQ.contains. rewrite existsb_exists.
  split; intros (t & Hin & Ht); exists t; (split; [by apply list_elem_of_In|done]).
Qed.

(** X14: after [insert] of a tuple on a heap with its sentinel, the
    priority and the key of the tuple are both [in] the heap, and a value is
    [in] the heap exactly when it was before or is one of the two. *)
Theorem contains_insert h k h' :
  shape h → pQ.insert h k = Ok h' →
  pQ.contains h' (pQ.VNum k.1) = true ∧
  pQ.contains h' (pQ.VStr k.2) = true ∧
  ∀ x, pQ.contains h' x = true ↔
       pQ.contains h x = true ∨ x = pQ.VNum k.1 ∨ x = pQ.VStr k.2.
Proof.
  intros Hsh Hins.
  destruct (insert_spec h k Hsh) as (h1 & Hh1 & Hsh' & _ & Hperm & _).
  rewrite Hins in Hh1. simplify_eq.
  assert (∀ x, pQ.contains h1 x = true ↔
               pQ.contains h x = true ∨ x = pQ.VNum k.1 ∨ x = pQ.VStr k.2)
    as Hall.
  { intros x. rewrite !contains_spec.
    rewrite (shape_heapList h Hsh), (shape_heapList h1 Hsh'). unfold queue.
    split.
    - intros (t & [->|Ht]%elem_of_cons & Hx).
      + left. exists pQ.sentinel. split; [by left|done].
      + rewrite Hperm in Ht. apply elem_of_app in Ht as [Ht| ->%list_elem_of_singleton].
        * left. exists t. split; [by right|done].
        * right. by apply in_tuple_spec.
    - intros [(t & [->|Ht]%elem_of_cons & Hx)|Hk].
      + exists pQ.sentinel. split; [by left|done].
      + exists t. split; [|done]. right. rewrite Hperm. apply elem_of_app. by left.
      + exists k. split; [|by apply in_tuple_spec]. right. rewrite Hperm.
        apply elem_of_app. right. by left. }
  split_and!; [apply Hall; auto..|done].
Qed.

Lemma contains_insert_witness :
  pQ.contains (pQ.mkHeap [pQ.sentinel; (pQ.Fin 2, "a")] 1) (pQ.VNum (pQ.Fin 2)) = true ∧
  pQ.contains (pQ.mkHeap [pQ.sentinel; (pQ.Fin 2, "a")] 1) (pQ.VStr "a") = true ∧
  ∀ x, pQ.contains (pQ.mkHeap [pQ.sentinel; (pQ.Fin 2, "a")] 1) x = true ↔
       pQ.contains pQ.init x = true ∨ x = pQ.VNum (pQ.Fin 2) ∨ x = pQ.VStr "a".
Proof.
  apply (contains_insert pQ.init (pQ.Fin 2, "a")); [split; reflexivity|reflexivity].
Defined.

(** X15: on a heap with [currentSize] tuples behind index 0, [minChild] of
    an index [i >= 1] that has a child returns the index of a child of [i]
    in range, and no child of [i] has a priority below that child's. *)
Theorem minChild_least h i :
  Z.of_nat (length (pQ.heapList h)) = (pQ.currentSize h + 1)%Z →
  (1 ≤ i)%Z → (i * 2 ≤ pQ.currentSize h)%Z →
  ∃ mc m, pQ.minChild h i = Ok mc ∧
          (mc = i * 2 ∨ mc = i * 2 + 1)%Z ∧ (mc ≤ pQ.currentSize h)%Z ∧
          pQ.heapList h !! Z.to_nat mc = Some m ∧
          ∀ c y, (c = i * 2 ∨ c = i * 2 + 1)%Z →
                 pQ.heapList h !! Z.to_nat c = Some y → prio_le m.1 y.1.
Proof.
  intros Hlen Hi Hc. destruct h as [l cs]. simpl in *.
  destruct (minChild_spec l cs i Hlen Hi Hc) as (mc & m & Hmc & Hpar & Hle & Hm & Hmin).
  exists mc, m. split_and!; try done.
  - by apply minChild_cases in Hmc.
  - intros c y Hcy. apply Hmin. Z.div_mod_to_equations. lia.
Qed.

Lemma minChild_least_witness :
  ∃ mc m, pQ.minChild (pQ.mkHeap [pQ.sentinel; (pQ.Fin 4, "c"); (pQ.Fin 7, "a");
                                   (pQ.Fin 9, "f")] 3) 1 = Ok mc ∧
          (mc = 1 * 2 ∨ mc = 1 * 2 + 1)%Z ∧ (mc ≤ 3)%Z ∧
          [pQ.sentinel; (pQ.Fin 4, "c"); (pQ.Fin 7, "a"); (pQ.Fin 9, "f")]
            !! Z.to_nat mc = Some m ∧
          ∀ c y, (c = 1 * 2 ∨ c = 1 * 2 + 1)%Z →
                 [pQ.sentinel; (pQ.Fin 4, "c"); (pQ.Fin 7, "a"); (pQ.Fin 9, "f")]
                   !! Z.to_nat c = Some y → prio_le m.1 y.1.
Proof.
  apply (minChild_least (pQ.mkHeap [pQ.sentinel; (pQ.Fin 4, "c"); (pQ.Fin 7, "a");
                                     (pQ.Fin 9, "f")] 3) 1); simpl; lia.
Defined.

(** ** Dijkstra *)

(** X16: on a well-formed graph with no vertex named ['0'], [Dijkstra] from
    a vertex of the graph returns once its loop has fuel for twice the
    square of the number of vertices plus that number.  The mapping has
    exactly the vertices as keys and the source at 0; a finite distance is
    the least number of edges of a walk from the source to the vertex, and
    a vertex at infinity is reached by no walk from the source. *)
Theorem Dijkstra_distances g source fuel :
  wf g → "0" ∉ graph.getNodes g → graph.hasVert g source = true →
  2 * (length (graph.getNodes g) * length (graph.getNodes g))
  + length (graph.getNodes g) ≤ fuel →
  ∃ dist, graph.Dijkstra fuel g source = Ok dist ∧
    (∀ v, graph.hasVert g v = true ↔ is_Some (dist !! v)) ∧
    dist !! source = Some (pQ.Fin 0) ∧
    (∀ v d, dist !! v = Some (pQ.Fin d) →
       (0 ≤ d)%Z ∧ nsteps (edge g) (Z.to_nat d) source v ∧
       ∀ n, nsteps (edge g) n source v → Z.to_nat d ≤ n) ∧
    (∀ v, dist !! v = Some pQ.Inf → ∀ n, ¬ nsteps (edge g) n source v).
Proof.
  intros Hwf Hno0 Hsrc%bool_decide_eq_true Hfuel.
  destruct (Dijkstra_correct g source Hwf Hno0 fuel Hsrc Hfuel)
    as (dist & Hd & Hdom & Hrest).
  exists dist. split_and!; [done| |apply Hrest..].
  intros v. unfold graph.hasVert. rewrite bool_decide_eq_true. apply Hdom.
Qed.

Lemma Dijkstra_distances_witness :
  ∃ dist, graph.Dijkstra 36 doctest_graph "A" = Ok dist ∧
    (∀ v, graph.hasVert doctest_graph v = true ↔ is_Some (dist !! v)) ∧
    dist !! "A" = Some (pQ.Fin 0) ∧
    (∀ v d, dist !! v = Some (pQ.Fin d) →
       (0 ≤ d)%Z ∧ nsteps (edge doctest_graph) (Z.to_nat d) "A" v ∧
       ∀ n, nsteps (edge doctest_graph) n "A" v → Z.to_nat d ≤ n) ∧
    (∀ v, dist !! v = Some pQ.Inf →
          ∀ n, ¬ nsteps (edge doctest_graph) n "A" v).
Proof.
  apply Dijkstra_distances.
  - apply (build_Ok_wf [("A", "B"); ("A", "C"); ("B", "C"); ("C", "D")]).
    vm_compute. reflexivity.
  - unfold graph.getNodes. simpl. rewrite !not_elem_of_cons.
    split_and!; try done. apply not_elem_of_nil.
  - reflexivity.
  - simpl. lia.
Defined.

(** X17: on such a graph the distance [Dijkstra] gives a vertex is one less
    than the length of the path [find_shortest_path] returns from the
    source to it, and it is infinity when that search returns [None]. *)
Theorem Dijkstra_agrees_with_find_shortest_path g source fuel v :
  wf g → "0" ∉ graph.getNodes g → graph.hasVert g source = true →
  graph.hasVert g v = true →
  2 * (length (graph.getNodes g) * length (graph.getNodes g))
  + length (graph.getNodes g) ≤ fuel →
  ∃ dist r, graph.Dijkstra fuel g source = Ok dist ∧
            graph.find_shortest_path g source v = Ok r ∧
            dist !! v = Some (match r with
                              | Some P => pQ.Fin (Z.of_nat (length P) - 1)
                              | None => pQ.Inf
                              end).
Proof.
  intros Hwf Hno0 Hsrc%bool_decide_eq_true Hv%bool_decide_eq_true Hfuel.
  by apply Dijkstra_find_shortest_path.
Qed.

Lemma Dijkstra_agrees_with_find_shortest_path_witness :
  ∃ dist r, graph.Dijkstra 36 doctest_graph "A" = Ok dist ∧
            graph.find_shortest_path doctest_graph "A" "D" = Ok r ∧
            dist !! "D" = Some (match r with
                                | Some P => pQ.Fin (Z.of_nat (length P) - 1)
                                | None => pQ.Inf
                                end).
Proof.
  apply Dijkstra_agrees_with_find_shortest_path.
  - apply (build_Ok_wf [("A", "B"); ("A", "C"); ("B", "C"); ("C", "D")]).
    vm_compute. reflexivity.
  - unfold graph.getNodes. simpl. rewrite !not_elem_of_cons.
    split_and!; try done. apply not_elem_of_nil.
  - reflexivity.
  - reflexivity.
  - simpl. lia.
Defined.

Lemma Dijkstra_relax_inf u ns (dist : gmap string pQ.prio) pq :
  (∀ w, w ∈ ns → dist !! w = Some pQ.Inf) →
  graph.Dijkstra_relax (pQ.Inf, u) ns dist pq = Ok (dist, pq).
Proof.
  induction ns as [|w ns IH]; intros Hall; [done|].
  cbn [graph.Dijkstra_relax fst].
  rewrite (dict_get_Some dist w pQ.Inf) by (apply Hall; by left). simpl.
  apply IH. intros w' Hw'. apply Hall. by right.
Qed.

Lemma Dijkstra_loop_inf fuel g (dist : gmap string pQ.prio) pq :
  wf g → shape pq →
  (∀ p k, (p, k) ∈ queue pq → p = pQ.Inf ∧ k ∈ graph.vertexList g) →
  (∀ v, v ∈ graph.vertexList g → dist !! v = Some pQ.Inf) →
  length (queue pq) ≤ fuel →
  graph.Dijkstra_loop fuel g dist pq = Ok dist.
Proof.
  intros Hwf. revert pq. induction fuel as [|fuel IH]; intros pq Hsh Hq Hdist Hfuel.
  - simpl. rewrite isEmpty_size by done.
    rewrite bool_decide_eq_true_2; [done|].
    pose proof (shape_length pq Hsh). lia.
  - cbn [graph.Dijkstra_loop]. destruct (pQ.isEmpty pq) eqn:Hemp; [done|].
    destruct (delMin_spec pq Hsh) as ([p u] & pq1 & -> & _ & Hsh1 & _ & Hperm & _).
    { rewrite isEmpty_size in Hemp by done. apply bool_decide_eq_false in Hemp.
      pose proof (shape_size pq Hsh). lia. }
    change (tail (pQ.heapList pq)) with (queue pq) in Hperm.
    change (tail (pQ.heapList pq1)) with (queue pq1) in Hperm.
    destruct (Hq p u) as [-> Hu]; [rewrite Hperm; by left|].
    simpl. destruct (getConns_wf g u) as [ns Hns]; [intros x; by apply wf_keys|done|].
    rewrite Hns. simpl. rewrite Dijkstra_relax_inf.
    + simpl. apply IH; try done.
      * intros p k Hin. apply Hq. rewrite Hperm. by right.
      * rewrite Hperm in Hfuel. simpl in Hfuel. lia.
    + intros w Hw. apply Hdist. apply (wf_closed g u w Hwf). by exists ns.
Qed.

(** X18: on a well-formed graph, whatever its vertices are named,
    [Dijkstra] from a source that is not a vertex returns once its loop has
    fuel for the number of vertices: the mapping has every vertex at
    infinity and no entry for the source. *)
Theorem Dijkstra_absent_source g source fuel :
  wf g → graph.hasVert g source = false → length (graph.getNodes g) ≤ fuel →
  ∃ dist, graph.Dijkstra fuel g source = Ok dist ∧
          dist !! source = None ∧
          ∀ v, dist !! v = if graph.hasVert g v then Some pQ.Inf else None.
Proof.
  intros Hwf Hsrc%bool_decide_eq_false Hfuel. unfold graph.Dijkstra.
  destruct (Dijkstra_init_spec source (graph.vertexList g) ∅ pQ.init shape_init)
    as (dist0 & pq0 & -> & Hsh0 & Hperm0 & Hlook0). simpl in Hperm0. simpl.
  assert (∀ v, dist0 !! v = if graph.hasVert g v then Some pQ.Inf else None)
    as Hdist0.
  { intros v. rewrite Hlook0. unfold graph.hasVert.
    destruct (decide (v ∈ graph.vertexList g)) as [Hv|Hv].
    - rewrite bool_decide_eq_true_2 by done. unfold initial_dist.
      rewrite bool_decide_eq_true_2; [done|]. by intros ->.
    - by rewrite bool_decide_eq_false_2 by done. }
  rewrite (Dijkstra_loop_inf fuel g dist0 pq0); try done.
  - exists dist0. split_and!; [done| |done].
    rewrite Hdist0. unfold graph.hasVert. by rewrite bool_decide_eq_false_2.
  - intros p k. rewrite Hperm0. intros (v & [= -> ->] & Hv)%list_elem_of_fmap.
    split; [|done]. unfold initial_dist. rewrite bool_decide_eq_true_2; [done|].
    by intros ->.
  - intros v Hv. rewrite Hdist0. unfold graph.hasVert.
    by rewrite bool_decide_eq_true_2.
  - rewrite Hperm0, length_fmap. done.
Qed.

Lemma Dijkstra_absent_source_witness :
  ∃ dist, graph.Dijkstra 4 doctest_graph "K" = Ok dist ∧
          dist !! "K" = None ∧
          ∀ v, dist !! v = if graph.hasVert doctest_graph v then Some pQ.Inf
                           else None.
Proof.
  apply Dijkstra_absent_source.
  - apply (build_Ok_wf [("A", "B"); ("A", "C"); ("B", "C"); ("C", "D")]).
    vm_compute. reflexivity.
  - reflexivity.
  - simpl. lia.
Defined.

(** ** The bounded queue *)

Lemma append_spec {A} (q : sQ.SimpleQueue A) item :
  (Z.of_nat (length (sQ.list q)) ≤ sQ.maxlen q)%Z →
  sQ.append q item =
    inr (sQ.mkQueue (sQ.maxlen q)
           (drop (length (sQ.list q) + 1 - Z.to_nat (sQ.maxlen q))
                 (sQ.list q ++ [item]))).
Proof.
  intros Hlen. unfold sQ.append. cbv zeta. rewrite length_app. simpl.
  case_bool_decide as Hfull.
  - replace (length (sQ.list q) + 1 - Z.to_nat (sQ.maxlen q)) with 1 by lia.
    destruct (sQ.list q); reflexivity.
  - replace (length (sQ.list q) + 1 - Z.to_nat (sQ.maxlen q)) with 0 by lia.
    reflexivity.
Qed.

Lemma append_each_spec {A} (alist : list A) (q : sQ.SimpleQueue A) :
  (Z.of_nat (length (sQ.list q)) ≤ sQ.maxlen q)%Z →
  sQ.append_each q alist =
    inr (sQ.mkQueue (sQ.maxlen q)
           (drop (length (sQ.list q) + length alist - Z.to_nat (sQ.maxlen q))
                 (sQ.list q ++ alist))).
Proof.
  revert q. induction alist as [|x alist IH]; intros q Hlen.
  - simpl. rewrite app_nil_r.
    replace (length (sQ.list q) + 0 - Z.to_nat (sQ.maxlen q)) with 0 by lia.
    by destruct q.
  - simpl. rewrite append_spec by done. rewrite IH; simpl.
    + f_equal. f_equal. rewrite length_drop, length_app. simpl.
      rewrite <- drop_app_le by (rewrite length_app; simpl; lia).
      rewrite drop_drop, <- app_assoc. simpl. f_equal. lia.
    + rewrite length_drop, length_app. simpl. lia.
Qed.

(** X19: on a queue holding at most [maxlen] items, a run of [append]
    calls never raises, leaves [maxlen] as it is and leaves in the queue
    the last [maxlen] of the items it held and the items appended, in their
    order; the queue still holds at most [maxlen] items. *)
Theorem append_keeps_last_maxlen {A} (q : sQ.SimpleQueue A) (items : list A) :
  (Z.of_nat (length (sQ.list q)) ≤ sQ.maxlen q)%Z →
  ∃ q', sQ.append_each q items = inr q' ∧
        sQ.maxlen q' = sQ.maxlen q ∧
        sQ.list q' = drop (length (sQ.list q ++ items) - Z.to_nat (sQ.maxlen q))
                          (sQ.list q ++ items) ∧
        (Z.of_nat (length (sQ.list q')) ≤ sQ.maxlen q)%Z.
Proof.
  intros Hlen. eexists. split; [by apply append_each_spec|]. simpl.
  rewrite length_drop, !length_app. split_and!; [done..|lia].
Qed.

Lemma append_keeps_last_maxlen_witness :
  ∃ q', sQ.append_each (sQ.mkQueue 5 [0; 1; 2; 3; 4]%Z) [33; 34]%Z = inr q' ∧
        sQ.maxlen q' = 5%Z ∧
        sQ.list q' = drop (length ([0; 1; 2; 3; 4] ++ [33; 34])%Z - Z.to_nat 5)
                          ([0; 1; 2; 3; 4] ++ [33; 34])%Z ∧
        (Z.of_nat (length (sQ.list q')) ≤ 5)%Z.
Proof.
  apply (append_keeps_last_maxlen (sQ.mkQueue 5 [0; 1; 2; 3; 4]%Z) [33; 34]%Z).
  simpl. lia.
Defined.

(** X20: [append] raises on no queue at all, whatever [maxlen] is and
    however many items the list holds: the new item is last in the list
    pushed onto, so the [pop(0)] that follows has an item to remove.  The
    list afterwards is the old one with the item behind it, less its first
    item when that is longer than [maxlen]. *)
Theorem append_never_raises {A} (q : sQ.SimpleQueue A) (item : A) :
  ∃ q', sQ.append q item = inr q' ∧ sQ.maxlen q' = sQ.maxlen q ∧
        sQ.list q' =
          if bool_decide (Z.of_nat (length (sQ.list q)) < sQ.maxlen q)%Z
          then sQ.list q ++ [item]
          else tail (sQ.list q ++ [item]).
Proof.
  unfold sQ.append. cbv zeta. rewrite length_app. simpl.
  repeat case_bool_decide; try lia.
  - destruct (sQ.list q); simpl; eauto.
  - eauto.
Qed.


Lemma dequeue_n_spec {A} n (q : sQ.SimpleQueue A) :
  sQ.dequeue_n n q =
    if bool_decide (n ≤ length (sQ.list q))
    then inr (take n (sQ.list q), sQ.mkQueue (sQ.maxlen q) (drop n (sQ.list q)))
    else inl sQ.IndexError.
Proof.
  revert q. induction n as [|n IH]; intros [m l];
    cbn [sQ.dequeue_n sQ.list sQ.maxlen].
  - rewrite bool_decide_eq_true_2 by lia. by rewrite drop_0.
  - unfold sQ.dequeue. destruct l as [|x l]; cbn [sQ.pop0 sQ.list sQ.maxlen].
    + rewrite bool_decide_eq_false_2; [done|]. simpl. lia.
    + rewrite IH. cbn [sQ.list sQ.maxlen length take drop].
      rewrite (bool_decide_ext (S n ≤ S (length l)) (n ≤ length l)) by lia.
      by case_bool_decide.
Qed.

(** X22: the queue is first in, first out.  After a [listAppend] that fits,
    as many [dequeue] calls as there are items return the items held before
    and then the items given, each in the order it came in, and leave the
    queue empty; one [dequeue] more raises [IndexError]. *)
Theorem dequeue_first_in_first_out {A} (q : sQ.SimpleQueue A) (alist : list A) :
  (Z.of_nat (length alist) + Z.of_nat (length (sQ.list q)) ≤ sQ.maxlen q)%Z →
  ∃ q', sQ.listAppend q alist = inr q' ∧
        sQ.dequeue_n (length (sQ.list q) + length alist) q'
          = inr (sQ.list q ++ alist, sQ.mkQueue (sQ.maxlen q) []) ∧
        sQ.dequeue (sQ.mkQueue (A:=A) (sQ.maxlen q) []) = inl sQ.IndexError.
Proof.
  intros Hfit. eexists. split_and!; [|rewrite dequeue_n_spec|done].
  - unfold sQ.listAppend. rewrite bool_decide_eq_true_2 by done.
    apply append_each_spec. lia.
  - simpl.
    replace (length (sQ.list q) + length alist - Z.to_nat (sQ.maxlen q)) with 0
      by lia.
    rewrite drop_0, <- length_app.
    rewrite bool_decide_eq_true_2 by done.
    by rewrite firstn_all, drop_all.
Qed.

Lemma dequeue_first_in_first_out_witness :
  ∃ q', sQ.listAppend (sQ.init 5) [0; 1; 2; 3; 4]%Z = inr q' ∧
        sQ.dequeue_n (length (sQ.list (sQ.init (A:=Z) 5)) + length [0; 1; 2; 3; 4]%Z) q'
          = inr (sQ.list (sQ.init 5) ++ [0; 1; 2; 3; 4]%Z, sQ.mkQueue 5 []) ∧
        sQ.dequeue (sQ.mkQueue (A:=Z) 5 []) = inl sQ.IndexError.
Proof.
  apply (dequeue_first_in_first_out (sQ.init 5) [0; 1; 2; 3; 4]%Z). simpl. lia.
Defined.
